(** * rigol_remote: the VISA capture program (cmd/rigol_visa/main.go)

    A shallow embedding of the instrument controller ([Write], [Read],
    [Trigger], [WaitForCapture], [FetchWaveformData], [FetchPreamble])
    and of the edge-extraction loop of [main], followed by the
    properties the specification states about them.

    Conventions.
    - A Go [[]byte] is a [GoSlice]: the visible elements and the spare
      capacity behind them, because a slice expression is checked
      against the capacity, not the length.
    - A Go [string] is a [string] of bytes; [string(d)] and [[]byte(s)]
      are the two conversions of the standard library.
    - [int64] and [byte] arithmetic is done on [Z] with the wrap-around
      written out ([wrap64], [wrap8]).
    - A Go [map] is a [gmap].
    - A function that can fail returns [error + A] (Go's [(A, error)]
      pair); a run-time panic is the separate outcome [Panic]. *)

From Stdlib Require Import ZArith Lia List.
From Stdlib.Floats Require Import SpecFloat.
From Stdlib.Strings Require Import Ascii String Byte.
From stdpp Require Import base option list gmap strings.

Local Open Scope Z_scope.

(** ** Go values *)

Module Go.

Abbreviation byte := Byte.byte.

(** The numeric value of a byte, 0..255. *)
Definition byte_val (b : byte) : Z := Z.of_N (Byte.to_N b).

(** Arithmetic on [byte] wraps modulo 2^8, on [int64] modulo 2^64
    (two's complement), on [uint32] modulo 2^32. *)
Definition wrap8 (x : Z) : Z := x mod 256.
Definition wrap64 (x : Z) : Z := (x + 2 ^ 63) mod 2 ^ 64 - 2 ^ 63.
Definition wrap_u32 (x : Z) : Z := x mod 2 ^ 32.

Definition max_int64 : Z := 2 ^ 63 - 1.
Definition max_uint64 : Z := 2 ^ 64 - 1.

(** A slice: [elems] are the [len] visible elements, [spare] the
    elements of the backing array between [len] and [cap]. *)
Record GoSlice := mkSlice { elems : list byte; spare : list byte }.

Definition len (d : GoSlice) : Z := Z.of_nat (length (elems d)).
Definition cap (d : GoSlice) : Z :=
  Z.of_nat (length (elems d) + length (spare d)).

(** A slice holding exactly [l], with no spare capacity. *)
Definition slice_of (l : list byte) : GoSlice := mkSlice l [].

(** The slice expression [d[lo:hi]]: it panics ([None]) unless
    [0 <= lo <= hi <= cap(d)]. *)
Definition reslice (d : GoSlice) (lo hi : Z) : option GoSlice :=
  if (0 <=? lo) && (lo <=? hi) && (hi <=? cap d) then
    let backing := elems d ++ spare d in
    Some (mkSlice (take (Z.to_nat (hi - lo)) (drop (Z.to_nat lo) backing))
                  (drop (Z.to_nat hi) backing))
  else None.

(** [string(d)] and [[]byte(s)]. *)
Definition string_of_bytes (d : GoSlice) : string :=
  string_of_list_byte (elems d).
Definition bytes_of_string (s : string) : GoSlice :=
  slice_of (list_byte_of_string s).

(** The outcome of running Go code: a value, or a run-time panic. *)
Inductive Outcome (A : Type) : Type :=
| Ret (a : A)
| Panic.
Arguments Ret {A} a.
Arguments Panic {A}.

(** The index expression [l[k]] on a slice of strings. *)
Definition index {A : Type} (l : list A) (k : nat) : Outcome A :=
  match l !! k with
  | Some x => Ret x
  | None => Panic
  end.

End Go.

Import Go.

(** ** Package strings *)

Module Strings.

(** [split_on c s]: the pieces of [s] between the occurrences of the
    one-byte separator [c], as [strings.Split(s, sep)] returns them for
    a separator of length one: n separators give n+1 pieces, and the
    empty string gives the single piece [""]. *)
Fixpoint split_on (c : ascii) (s : string) : list string :=
  match s with
  | EmptyString => [EmptyString]
  | String a rest =>
      if Ascii.eqb a c then EmptyString :: split_on c rest
      else match split_on c rest with
           | piece :: pieces => String a piece :: pieces
           | [] => [String a EmptyString]
           end
  end.

Definition newline : ascii := ascii_of_nat 10.
Definition comma : ascii := ascii_of_nat 44.

(** [strings.Split(s, "\n")[0]]: never panics, [split_on] is never
    empty. *)
Definition first_line (s : string) : Outcome string :=
  index (split_on newline s) 0.

End Strings.

(** ** The edge-extraction loop of [main] *)

Module Edges.

(** The loop variables: [transitions] (sample index to raw pin
    values), [signalChanges] (pin index to sample index of its last
    change), [timestamp] and [last]. *)
Record LoopState := mkLoop {
  transitions : gmap Z byte;
  signalChanges : gmap Z Z;
  timestamp : Z;
  last : byte
}.

(** The condition [b&1<<i != last&1<<i]. In Go [&] and [<<] have the
    same precedence and associate to the left, so each side reads
    [(x&1)<<i], computed on [byte]. *)
Definition masked (x : byte) (i : Z) : Z :=
  wrap8 (Z.shiftl (Z.land (byte_val x) 1) i).

Definition pin_differs (b last : byte) (i : Z) : bool :=
  negb (masked b i =? masked last i).

(** [for i := 0; i < len(pins); i++ { if ... { signalChanges[i] =
    timestamp } }], the counter running over [0 .. npins-1]. *)
Definition pin_loop (npins : nat) (b last : byte) (ts : Z)
    (sc : gmap Z Z) : gmap Z Z :=
  fold_left
    (fun sc i => if pin_differs b last (Z.of_nat i)
                 then <[Z.of_nat i := ts]> sc else sc)
    (seq 0 npins) sc.

(** One iteration of [for _, b := range data]. *)
Definition step (npins : nat) (st : LoopState) (b : byte) : LoopState :=
  let '(tr, sc) :=
    if negb (Byte.eqb b (last st)) then
      (<[timestamp st := b]> (transitions st),
       pin_loop npins b (last st) (timestamp st) (signalChanges st))
    else (transitions st, signalChanges st) in
  mkLoop tr sc (wrap64 (timestamp st + 1)) b.

(** The state before the loop: [transitions[0] = 0x00] is already
    stored. *)
Definition init : LoopState :=
  mkLoop {[ 0 := x00 ]} ∅ 0 x00.

(** The whole pass over [data], for the signal map [pins]; only
    [len(pins)] is used by the code. *)
Definition find_edges (pins : gmap string Z) (data : GoSlice) : LoopState :=
  fold_left (step (size pins)) (elems data) init.

(** The signal map of [main]. *)
Definition main_pins : gmap string Z :=
  {[ "RD" := 0; "MREQ" := 1; "A15" := 2; "A14" := 3; "ROMCS" := 4 ]}%string.

(** The per-signal test in the words of the specification: bit [i]
    of [b] differs from bit [i] of [previousByte]. *)
Definition spec_bit_differs (b previous : byte) (i : Z) : bool :=
  negb (Bool.eqb (Z.testbit (byte_val b) i)
                 (Z.testbit (byte_val previous) i)).

(** The pass in the words of the specification: the same loop with
    [spec_bit_differs] as the per-signal test. *)
Definition spec_step (npins : nat) (st : LoopState) (b : byte)
    : LoopState :=
  let '(tr, sc) :=
    if negb (Byte.eqb b (last st)) then
      (<[timestamp st := b]> (transitions st),
       fold_left
         (fun sc i => if spec_bit_differs b (last st) (Z.of_nat i)
                      then <[Z.of_nat i := timestamp st]> sc else sc)
         (seq 0 npins) (signalChanges st))
    else (transitions st, signalChanges st) in
  mkLoop tr sc (wrap64 (timestamp st + 1)) b.

Definition spec_find_edges (pins : gmap string Z) (data : GoSlice)
    : LoopState :=
  fold_left (spec_step (size pins)) (elems data) init.

End Edges.

(** ** Package strconv *)

Module Strconv.

(** [strconv.ErrSyntax] and [strconv.ErrRange]. *)
Inductive ErrKind := ErrSyntax | ErrRange.

(** [strconv.NumError]: the failing function, the input and the
    reason. *)
Record NumError := mkNumError { Func : string; Num : string; Err : ErrKind }.

(** [ParseUint(s, 10, 64)]: the smallest number whose tenfold
    overflows [uint64]. *)
Definition cutoff10 : Z := max_uint64 / 10 + 1.

(** The digit loop of [ParseUint] for base 10: any byte that is not a
    decimal digit is a syntax error; an overflow of [uint64] is a
    range error, reported where it happens. *)
Fixpoint parse_uint_loop (s : string) (n : Z) : ErrKind + Z :=
  match s with
  | EmptyString => inr n
  | String c rest =>
      let v := Z.of_nat (nat_of_ascii c) in
      if (48 <=? v) && (v <=? 57) then
        let d := v - 48 in
        if cutoff10 <=? n then inl ErrRange
        else
          let n' := n * 10 in
          let n1 := (n' + d) mod 2 ^ 64 in
          if (n1 <? n') || (max_uint64 <? n1) then inl ErrRange
          else parse_uint_loop rest n1
      else inl ErrSyntax
  end.

Definition ParseUint10 (s : string) : ErrKind + Z :=
  match s with
  | EmptyString => inl ErrSyntax
  | _ => parse_uint_loop s 0
  end.

(** [strconv.ParseInt(s, 10, 64)]: an optional sign, then
    [ParseUint]; the magnitude must fit [int64]. The error carries
    the whole input. *)
Definition ParseInt (s0 : string) : NumError + Z :=
  let fail k := inl (mkNumError "ParseInt" s0 k) in
  match s0 with
  | EmptyString => fail ErrSyntax
  | String c rest =>
      let '(neg, s) :=
        if Ascii.eqb c "+" then (false, rest)
        else if Ascii.eqb c "-" then (true, rest)
        else (false, s0) in
      match ParseUint10 s with
      | inl ErrSyntax => fail ErrSyntax
      | inl ErrRange => fail ErrRange
      | inr un =>
          let cutoff := 2 ^ 63 in
          if negb neg && (cutoff <=? un) then fail ErrRange
          else if neg && (cutoff <? un) then fail ErrRange
          else inr (wrap64 (if neg then - wrap64 un else wrap64 un))
      end
  end.

End Strconv.

(** ** The instrument session *)

(** The errors the program builds: [fmt.Errorf("error writing to the
    device: %v", status)], [fmt.Errorf("read failed with error code
    %x", status)], [errors.New("timeout waiting for trigger")], and the
    [*strconv.NumError] of a failed conversion. *)
Inductive error :=
| WriteError (status : Z)
| ReadError (status : Z)
| TimeoutError
| ConvError (e : Strconv.NumError).

(** What the program does to the outside, in program order. *)
Inductive Event :=
| EvSleep (nanoseconds : Z)
| EvWrite (buf : list byte) (count : Z)
| EvRead (count : Z)
| EvPrint (text : string).

(** The VISA binding ([github.com/jpoirier/visa]) is outside the
    repository. Its session object is a state [T] with the two calls
    the program makes: [Write(buf, count)] returns the number of bytes
    written and a status, [Read(count)] returns a buffer, the number of
    bytes read and a status; [SUCCESS] is the binding's constant
    [vi.SUCCESS]. *)
Class Visa (T : Type) := {
  SUCCESS : Z;
  instr_Write : T -> list byte -> Z -> T * (Z * Z);
  instr_Read : T -> Z -> T * (GoSlice * Z * Z)
}.

(** A run threads the instrument and the trace of events. *)
Record World (T : Type) := mkWorld { instr : T; trace : list Event }.
Arguments mkWorld {T} instr trace.
Arguments instr {T} w.
Arguments trace {T} w.

Definition M (T A : Type) : Type := World T -> Outcome A * World T.

Definition ret {T A} (a : A) : M T A := fun w => (Ret a, w).

Definition bind {T A B} (c : M T A) (k : A -> M T B) : M T B :=
  fun w =>
    match c w with
    | (Ret a, w') => k a w'
    | (Panic, w') => (Panic, w')
    end.

Definition panic {T A} : M T A := fun w => (Panic, w).

Definition emit {T} (e : Event) : M T unit :=
  fun w => (Ret tt, mkWorld (instr w) (trace w ++ [e])).

(** Lift a pure computation that may panic. *)
Definition lift {T A} (o : Outcome A) : M T A := fun w => (o, w).

Declare Scope go_scope.
Delimit Scope go_scope with go.
Notation "'let*' x ':=' c 'in' k" := (bind c (fun x => k))
  (at level 10, x name, c at level 100, k at level 200) : go_scope.
Notation "'run' c 'in' k" := (bind c (fun _ => k))
  (at level 10, c at level 100, k at level 200) : go_scope.

Section Controller.

Context {T : Type} `{Visa T}.

Local Open Scope go_scope.

(** [r.Instr.Write(b, n)] and [r.Instr.Read(n)], recorded in the
    trace. *)
Definition call_Write (b : list byte) (n : Z) : M T (Z * Z) :=
  fun w =>
    let '(i', r) := instr_Write (instr w) b n in
    (Ret r, mkWorld i' (trace w ++ [EvWrite b n])).

Definition call_Read (n : Z) : M T (GoSlice * Z * Z) :=
  fun w =>
    let '(i', r) := instr_Read (instr w) n in
    (Ret r, mkWorld i' (trace w ++ [EvRead n])).

(** [func (r *Rigol) Write(msg string) error]: the returned count is
    dropped, only the status is tested. *)
Definition Write (msg : string) : M T (option error) :=
  let b := bytes_of_string msg in
  let* r := call_Write (elems b) (wrap_u32 (len b)) in
  let '(_, status) := r in
  if status <? SUCCESS then ret (Some (WriteError status))
  else ret None.

(** [func (r *Rigol) Read(bytes uint32) ([]byte, error)]. *)
Definition Read (bytes : Z) : M T (error + GoSlice) :=
  let* r := call_Read bytes in
  let '(b, _, status) := r in
  if status <? SUCCESS then ret (inl (ReadError status))
  else ret (inr b).

(** [for _, cmd := range setup { if err := r.Write(cmd); err != nil
    { return err } }]: the result is the first error, [None] when the
    loop runs to its end. *)
Fixpoint write_each (setup : list string) : M T (option error) :=
  match setup with
  | [] => ret None
  | cmd :: rest =>
      let* e := Write cmd in
      match e with
      | Some err => ret (Some err)
      | None => write_each rest
      end
  end.

Definition waveform_setup (source : string) : list string :=
  [ (":WAV:SOUR " ++ source)%string;
    ":WAV:MODE RAW"; ":WAV:FORM BYTE"; ":WAV:STAR 1";
    ":WAV:STOP 125000"; ":WAV:DATA?" ]%string.

(** [func (r *Rigol) FetchWaveformData(source string) ([]byte,
    []byte, error)]. The two slice expressions of the [return] are
    evaluated left to right and either may panic. *)
Definition FetchWaveformData (source : string)
    : M T (error + GoSlice * GoSlice) :=
  let* e := write_each (waveform_setup source) in
  match e with
  | Some err => ret (inl err)
  | None =>
      let* r := Read 125000 in
      match r with
      | inl err => ret (inl err)
      | inr d =>
          match reslice d 0 11 with
          | None => panic
          | Some header =>
              match reslice d 11 (len d - 1) with
              | None => panic
              | Some data => ret (inr (header, data))
              end
          end
      end
  end.

Definition trigger_setup : list string :=
  [ ":CHAN1:DISP ON"; ":CHAN1:PROB 10"; ":CHAN1:UNIT VOLT";
    ":CHAN1:SCAL 1"; ":CHAN1:OFFS 0"; ":CHAN2:DISP OFF";
    ":CHAN3:DISP OFF"; ":CHAN4:DISP OFF"; ":LA:STAT ON";
    ":LA:POD1:DISP ON"; ":LA:POD1:THR 3"; ":LA:POD2:DISP OFF";
    ":LA:POD2:THR 3"; ":TRIG:MODE EDGE"; ":TRIG:EDG:SOUR CHAN1";
    ":TRIG:EDG:SLOP POS"; ":TRIG:EDG:LEV 3"; ":ACQ:MDEP 125000";
    ":TIM:MAIN:SCAL 0.0002"; ":ACQ:TYPE HRES"; ":SING" ]%string.

(** [func (r *Rigol) Trigger() error]. *)
Definition Trigger : M T (option error) := write_each trigger_setup.

(** What one pass through the body of the polling loop decides. *)
Inductive Poll := PollReturn (e : option error) | PollNext.

(** The body of the loop of [WaitForCapture]. *)
Definition poll_once : M T Poll :=
  run emit (EvSleep 1000000000) in
  let* e := Write "TRIG:STAT?" in
  match e with
  | Some err => ret (PollReturn (Some err))
  | None =>
      let* r := Read 100 in
      match r with
      | inl err => ret (PollReturn (Some err))
      | inr d =>
          let* state := lift (Strings.first_line (string_of_bytes d)) in
          if String.eqb state "STOP" then ret (PollReturn None)
          else ret PollNext
      end
  end.

(** [for i := 0; i < 60; i++ { ... }] followed by the timeout error;
    [remaining] is [60 - i]. *)
Fixpoint wait_loop (remaining : nat) : M T (option error) :=
  match remaining with
  | O => ret (Some TimeoutError)
  | S n =>
      let* p := poll_once in
      match p with
      | PollReturn e => ret e
      | PollNext => wait_loop n
      end
  end.

(** [func (r *Rigol) WaitForCapture() error]. *)
Definition WaitForCapture : M T (option error) := wait_loop 60.

End Controller.

(** ** The preamble *)

Section PreambleParser.

(** [float64] and [strconv.ParseFloat(s, 64)] belong to the Go
    run time and library; the parser is read for any of them.
    [float_zero] is the zero value of the type. *)
Variable float64 : Type.
Variable float_zero : float64.
Variable ParseFloat : string -> Strconv.NumError + float64.

(** [type Preamble struct]. *)
Record Preamble := mkPreamble {
  Format : Z;
  Type_ : Z;
  Points : Z;
  Count : Z;
  Xincrement : float64;
  Xorigin : float64;
  Xref : Z;
  Yincrement : float64;
  Yorigin : Z;
  Yref : Z
}.

(** [&Preamble{}]. *)
Definition zero_Preamble : Preamble :=
  mkPreamble 0 0 0 0 float_zero float_zero 0 float_zero 0 0.

(** The assignments [p.Format = pf], ..., [p.Yref = pyr]. *)
Definition set_Format v p :=
  mkPreamble v (Type_ p) (Points p) (Count p) (Xincrement p) (Xorigin p)
    (Xref p) (Yincrement p) (Yorigin p) (Yref p).
Definition set_Type v p :=
  mkPreamble (Format p) v (Points p) (Count p) (Xincrement p) (Xorigin p)
    (Xref p) (Yincrement p) (Yorigin p) (Yref p).
Definition set_Points v p :=
  mkPreamble (Format p) (Type_ p) v (Count p) (Xincrement p) (Xorigin p)
    (Xref p) (Yincrement p) (Yorigin p) (Yref p).
Definition set_Count v p :=
  mkPreamble (Format p) (Type_ p) (Points p) v (Xincrement p) (Xorigin p)
    (Xref p) (Yincrement p) (Yorigin p) (Yref p).
Definition set_Xincrement v p :=
  mkPreamble (Format p) (Type_ p) (Points p) (Count p) v (Xorigin p)
    (Xref p) (Yincrement p) (Yorigin p) (Yref p).
Definition set_Xorigin v p :=
  mkPreamble (Format p) (Type_ p) (Points p) (Count p) (Xincrement p) v
    (Xref p) (Yincrement p) (Yorigin p) (Yref p).
Definition set_Xref v p :=
  mkPreamble (Format p) (Type_ p) (Points p) (Count p) (Xincrement p)
    (Xorigin p) v (Yincrement p) (Yorigin p) (Yref p).
Definition set_Yincrement v p :=
  mkPreamble (Format p) (Type_ p) (Points p) (Count p) (Xincrement p)
    (Xorigin p) (Xref p) v (Yorigin p) (Yref p).
Definition set_Yorigin v p :=
  mkPreamble (Format p) (Type_ p) (Points p) (Count p) (Xincrement p)
    (Xorigin p) (Xref p) (Yincrement p) v (Yref p).
Definition set_Yref v p :=
  mkPreamble (Format p) (Type_ p) (Points p) (Count p) (Xincrement p)
    (Xorigin p) (Xref p) (Yincrement p) (Yorigin p) v.

(** [if v, err := parse(parts[k]); err != nil { return nil, err }
    else { p.field = v }], then the rest [k] of the function. The
    index expression is evaluated first and panics when [k] is out of
    range. *)
Definition field {V : Type} (parse : string -> Strconv.NumError + V)
    (parts : list string) (k : nat) (assign : V -> Preamble -> Preamble)
    (p : Preamble) (rest : Preamble -> Outcome (error + Preamble))
    : Outcome (error + Preamble) :=
  match index parts k with
  | Panic => Panic
  | Ret tok =>
      match parse tok with
      | inl err => Ret (inl (ConvError err))
      | inr v => rest (assign v p)
      end
  end.

(** Lines 156-209 of [FetchPreamble]: from [preambleStr] to the
    returned pair. *)
Definition parse_preamble (preambleStr : string)
    : Outcome (error + Preamble) :=
  let p := zero_Preamble in
  let parts := Strings.split_on Strings.comma preambleStr in
  field Strconv.ParseInt parts 0 set_Format p (fun p =>
  field Strconv.ParseInt parts 1 set_Type p (fun p =>
  field Strconv.ParseInt parts 2 set_Points p (fun p =>
  field Strconv.ParseInt parts 3 set_Count p (fun p =>
  field ParseFloat parts 4 set_Xincrement p (fun p =>
  field ParseFloat parts 5 set_Xorigin p (fun p =>
  field Strconv.ParseInt parts 6 set_Xref p (fun p =>
  field ParseFloat parts 7 set_Yincrement p (fun p =>
  field Strconv.ParseInt parts 8 set_Yorigin p (fun p =>
  field Strconv.ParseInt parts 9 set_Yref p (fun p =>
  Ret (inr p))))))))))).

Context {T : Type} `{Visa T}.

Local Open Scope go_scope.

(** [func (r *Rigol) FetchPreamble()], returning a [Preamble] pointer and
    an [error]. *)
Definition FetchPreamble : M T (error + Preamble) :=
  let* e := Write ":WAV:PRE?" in
  match e with
  | Some err => ret (inl err)
  | None =>
      let* r := Read 100 in
      match r with
      | inl err => ret (inl err)
      | inr preamble =>
          let* preambleStr :=
            lift (Strings.first_line (string_of_bytes preamble)) in
          run emit (EvPrint ("Raw Preamble: " ++ preambleStr
                             ++ String Strings.newline "")%string) in
          lift (parse_preamble preambleStr)
      end
  end.

End PreambleParser.

Arguments Format {float64} p.
Arguments Type_ {float64} p.
Arguments Points {float64} p.
Arguments Count {float64} p.
Arguments Xincrement {float64} p.
Arguments Xorigin {float64} p.
Arguments Xref {float64} p.
Arguments Yincrement {float64} p.
Arguments Yorigin {float64} p.
Arguments Yref {float64} p.
Arguments mkPreamble {float64}.
Arguments field {float64 V}.
Arguments parse_preamble {float64}.
Arguments FetchPreamble {float64} float_zero ParseFloat {T H}.

(** ** Instances for running the program on concrete exchanges *)

(** A scripted instrument: each call takes its answer from a queue.
    When the queue of writes is empty a write reports the full count
    and status 0; when the queue of reads is empty a read reports an
    empty buffer and a negative status. *)
Module Script.

Record Instr := mkInstr {
  write_answers : list (Z * Z);
  read_answers : list (GoSlice * Z * Z)
}.

Definition do_Write (s : Instr) (b : list byte) (n : Z) : Instr * (Z * Z) :=
  match write_answers s with
  | [] => (s, (n, 0))
  | a :: rest => (mkInstr rest (read_answers s), a)
  end.

Definition do_Read (s : Instr) (n : Z) : Instr * (GoSlice * Z * Z) :=
  match read_answers s with
  | [] => (s, (slice_of [], 0, -1))
  | a :: rest => (mkInstr (write_answers s) rest, a)
  end.

#[global] Instance visa : Visa Instr :=
  {| SUCCESS := 0; instr_Write := do_Write; instr_Read := do_Read |}.

(** A successful read of the bytes of [s]. *)
Definition answer (s : string) : GoSlice * Z * Z :=
  (bytes_of_string s, Z.of_nat (String.length s), 0).

Definition start (ws : list (Z * Z)) (rs : list (GoSlice * Z * Z))
    : World Instr :=
  mkWorld (mkInstr ws rs) [].

End Script.

(** Binary64 values for the closed examples, with a conversion that
    covers plain decimal literals ([sign] digits [. digits]) whose
    digits form a number below 2^52 with at most 22 of them after the
    point: there Go converts exactly, as [float64(m) / 1e<k>]. Anything
    else is refused here; the theorems below do not use this instance,
    they hold for every [ParseFloat]. *)
Module F64.

Definition float64 : Type := spec_float.
Definition prec : Z := 53.
Definition emax : Z := 1024.

Definition of_Z (m : Z) : float64 := binary_normalize prec emax m 0 false.
Definition zero : float64 := S754_zero false.

Definition is_digit (c : ascii) : bool :=
  let v := Z.of_nat (nat_of_ascii c) in (48 <=? v) && (v <=? 57).
Definition digit_val (c : ascii) : Z := Z.of_nat (nat_of_ascii c) - 48.

(** Digits after the point: mantissa, number of fractional digits
    read so far. *)
Fixpoint scan_frac (s : string) (m : Z) (k : nat) (seen : bool)
    : option (Z * nat) :=
  match s with
  | EmptyString => if seen then Some (m, k) else None
  | String c rest =>
      if is_digit c then scan_frac rest (m * 10 + digit_val c) (S k) true
      else None
  end.

Fixpoint scan_int (s : string) (m : Z) (seen : bool) : option (Z * nat) :=
  match s with
  | EmptyString => if seen then Some (m, O) else None
  | String c rest =>
      if is_digit c then scan_int rest (m * 10 + digit_val c) true
      else if Ascii.eqb c "." then scan_frac rest m O seen
      else None
  end.

Definition ParseFloat (s0 : string) : Strconv.NumError + float64 :=
  let fail := inl (Strconv.mkNumError "ParseFloat" s0 Strconv.ErrSyntax) in
  let '(neg, s) :=
    match s0 with
    | String c rest =>
        if Ascii.eqb c "+" then (false, rest)
        else if Ascii.eqb c "-" then (true, rest)
        else (false, s0)
    | EmptyString => (false, s0)
    end in
  match scan_int s 0 false with
  | Some (m, k) =>
      if (m <? 2 ^ 52) && (Nat.leb k 22) then
        let f := of_Z m in
        let f := if neg then SFopp f else f in
        inr (match k with
             | O => f
             | _ => SFdiv prec emax f (of_Z (10 ^ Z.of_nat k))
             end)
      else fail
  | None => fail
  end.

End F64.

(** ** Exchanges with the instrument, as the properties speak of them *)

Section Exchanges.

Context {T : Type} `{Visa T}.

(** The event of [r.Write(cmd)]. *)
Definition write_event (cmd : string) : Event :=
  EvWrite (list_byte_of_string cmd)
          (wrap_u32 (len (bytes_of_string cmd))).

(** [instr_Write] applied to the bytes of [cmd], as [Write] calls
    it. *)
Definition send (i : T) (cmd : string) : T * (Z * Z) :=
  instr_Write i (list_byte_of_string cmd)
              (wrap_u32 (len (bytes_of_string cmd))).

(** [Written i cmds i']: from the instrument state [i], the commands
    [cmds] written one after the other all come back with a status
    that is not below [SUCCESS], and leave the instrument in [i']. *)
Inductive Written : T -> list string -> T -> Prop :=
| Written_nil i : Written i [] i
| Written_cons i cmd i1 n st cmds i2 :
    send i cmd = (i1, (n, st)) ->
    SUCCESS <= st ->
    Written i1 cmds i2 ->
    Written i (cmd :: cmds) i2.

(** [Polled i lines i']: from the instrument state [i], successive
    status queries ([TRIG:STAT?] written, 100 bytes read) all succeed,
    the first lines of the responses are [lines] in this order, and
    the instrument is left in [i']. *)
Inductive Polled : T -> list string -> T -> Prop :=
| Polled_nil i : Polled i [] i
| Polled_cons i i1 n st i2 d m st' line lines i3 :
    send i "TRIG:STAT?" = (i1, (n, st)) ->
    SUCCESS <= st ->
    instr_Read i1 100 = (i2, (d, m, st')) ->
    SUCCESS <= st' ->
    Strings.first_line (string_of_bytes d) = Ret line ->
    Polled i2 lines i3 ->
    Polled i (line :: lines) i3.

(** The events of one complete poll. *)
Definition poll_events : list Event :=
  [EvSleep 1000000000; write_event "TRIG:STAT?"; EvRead 100].


End Exchanges.

(** The conversion a field of the preamble goes through, by its
    position: [ParseFloat] for [Xincrement], [Xorigin] and [Yincrement]
    (positions 4, 5 and 7), [ParseInt] for the others. [conv_error] is
    the error of the token [tok] at position [k], if it has one. *)
Definition is_float_field (k : nat) : bool :=
  Nat.eqb k 4 || Nat.eqb k 5 || Nat.eqb k 7.

Definition conv_error {float64 : Type}
    (ParseFloat : string -> Strconv.NumError + float64)
    (k : nat) (tok : string) : option Strconv.NumError :=
  if is_float_field k then
    match ParseFloat tok with inl e => Some e | inr _ => None end
  else
    match Strconv.ParseInt tok with inl e => Some e | inr _ => None end.

(** The token at position [k] of [line] converts to [v]. *)
Definition parsed_at {V : Type} (parse : string -> Strconv.NumError + V)
    (line : string) (k : nat) (v : V) : Prop :=
  exists tok, Strings.split_on Strings.comma line !! k = Some tok
              /\ parse tok = inr v.

(** The number of comma-separated fields of [line]. *)
Definition field_count (line : string) : nat :=
  length (Strings.split_on Strings.comma line).

(** ** Reading a payload sample by sample *)

(** The byte before sample [t]: the [last] of the loop when it reaches
    [t], 0x00 before the first sample. *)
Definition prev_byte (l : list byte) (t : nat) : byte :=
  match t with
  | O => x00
  | S t' => default x00 (l !! t')
  end.

(** Bit 0 of [b] differs from bit 0 of [p]. *)
Definition bit0_differs (b p : byte) : bool :=
  negb (Bool.eqb (Z.testbit (byte_val b) 0) (Z.testbit (byte_val p) 0)).

(** Sample [t] of [l] has a bit 0 that differs from the one of the
    byte before it. *)
Definition flips_bit0 (l : list byte) (t : Z) : bool :=
  (0 <=? t)
  && match l !! Z.to_nat t with
     | Some b => bit0_differs b (prev_byte l (Z.to_nat t))
     | None => false
     end.


(** ** Strings, piece by piece *)

(** The byte [c] occurs in [s]. *)
Fixpoint has_byte (c : ascii) (s : string) : bool :=
  match s with
  | EmptyString => false
  | String a rest => Ascii.eqb a c || has_byte c rest
  end.

(** The pieces put back together with [c] between them, as
    [strings.Join] does for a separator of one byte. *)
Fixpoint join (c : ascii) (pieces : list string) : string :=
  match pieces with
  | [] => EmptyString
  | [piece] => piece
  | piece :: rest => (piece ++ String c (join c rest))%string
  end.

(** ** The program: [Init], [Close] and [main] *)

(** The two errors of [Init]: [errors.New("could not open a session to
    the VISA Resource Manager")] and [fmt.Errorf("an error occurred
    opening the session to %s", connStr)]. *)
Inductive InitError :=
| ResourceManagerError
| OpenError (connStr : string).

(** The rest of the VISA binding that the program calls:
    [vi.OpenDefaultRM()], [rm.Open(connStr, vi.NULL, vi.NULL)] and the
    two [Close()]. The handles they return live in the state [T]; the
    opening calls give their status, the statuses of the closing calls
    are dropped by the program. *)
Class VisaLib (T : Type) `{Visa T} := {
  lib_OpenDefaultRM : T -> T * Z;
  rm_Open : T -> string -> T * Z;
  instr_Close : T -> T;
  rm_Close : T -> T
}.

(** What the program does, in program order: the events of the
    controller, the calls that open and close the session, the lines
    given to [log.Println], and [log.Fatal], which prints the error and
    leaves the process with [os.Exit(1)]. *)
Inductive SessionEvent :=
| Io (e : Event)
| EvOpenRM
| EvOpen (connStr : string)
| EvCloseInstr
| EvCloseRM
| EvLog (line : string)
| EvFatal (e : InitError + error).

(** How a stretch of [main] ends: it goes on with a value, it leaves
    the process through [log.Fatal], or it panics. *)
Inductive Step (A : Type) : Type :=
| GoOn (a : A)
| FatalExit
| Panicking.
Arguments GoOn {A} a.
Arguments FatalExit {A}.
Arguments Panicking {A}.

Definition Prog (T A : Type) : Type :=
  T * list SessionEvent -> Step A * (T * list SessionEvent).

Definition pret {T A} (a : A) : Prog T A := fun s => (GoOn a, s).

Definition pbind {T A B} (c : Prog T A) (k : A -> Prog T B) : Prog T B :=
  fun s =>
    match c s with
    | (GoOn a, s') => k a s'
    | (FatalExit, s') => (FatalExit, s')
    | (Panicking, s') => (Panicking, s')
    end.

Definition record {T} (e : SessionEvent) : Prog T unit :=
  fun s => (GoOn tt, (s.1, s.2 ++ [e])).

(** A method of the controller, run inside the program. *)
Definition controller {T A} (c : M T A) : Prog T A :=
  fun s =>
    let '(o, w) := c (mkWorld s.1 []) in
    (match o with Ret a => GoOn a | Panic => Panicking end,
     (instr w, s.2 ++ map Io (trace w))).

(** [log.Println(line)] and [log.Fatal(err)]. *)
Definition log_Println {T} (line : string) : Prog T unit :=
  record (EvLog line).

Definition log_Fatal {T A} (e : InitError + error) : Prog T A :=
  fun s => (FatalExit, (s.1, s.2 ++ [EvFatal e])).

(** [fmt.Printf] and [fmt.Println], with the text they write. *)
Definition fmt_Print {T} (text : string) : Prog T unit :=
  record (Io (EvPrint text)).

(** [defer cleanup()] followed by [body]: the deferred call runs when
    the body returns and when it panics, not when the process exits
    inside it. *)
Definition deferring {T A} (cleanup : Prog T unit) (body : Prog T A)
    : Prog T A :=
  fun s =>
    match body s with
    | (GoOn a, s') => (GoOn a, (cleanup s').2)
    | (FatalExit, s') => (FatalExit, s')
    | (Panicking, s') => (Panicking, (cleanup s').2)
    end.

Declare Scope prog_scope.
Delimit Scope prog_scope with prog.
Notation "'do*' x ':=' c 'in' k" := (pbind c (fun x => k))
  (at level 10, x name, c at level 100, k at level 200) : prog_scope.
Notation "'do' c 'in' k" := (pbind c (fun _ => k))
  (at level 10, c at level 100, k at level 200) : prog_scope.

Section Program.

Context {T : Type} `{VisaLib T}.

(** [float64], [strconv.ParseFloat] and the verbs of [fmt] that [main]
    uses ([%d], [%.9f], [%x]) belong to the Go library. *)
Variable float64 : Type.
Variable float_zero : float64.
Variable ParseFloat : string -> Strconv.NumError + float64.
Variable fmt_d : Z -> string.
Variable fmt_9f : float64 -> string.
Variable fmt_x : byte -> string.

Local Open Scope prog_scope.

(** [func (r *Rigol) Init(connStr string) error]. When [rm.Open] fails
    the resource manager stays open. *)
Definition Init (connStr : string) : Prog T (option InitError) :=
  fun s =>
    let '(i1, status) := lib_OpenDefaultRM s.1 in
    let tr1 := s.2 ++ [EvOpenRM] in
    if status <? SUCCESS then (GoOn (Some ResourceManagerError), (i1, tr1))
    else
      let '(i2, status) := rm_Open i1 connStr in
      let tr2 := tr1 ++ [EvOpen connStr] in
      if status <? SUCCESS then (GoOn (Some (OpenError connStr)), (i2, tr2))
      else (GoOn None, (i2, tr2)).

(** [func (r *Rigol) Close()]. *)
Definition Close : Prog T unit :=
  fun s => (GoOn tt, (rm_Close (instr_Close s.1),
                      s.2 ++ [EvCloseInstr; EvCloseRM])).

(** [for _, b := range header { fmt.Printf("%x ", b) }]. *)
Fixpoint print_header (header : list byte) : Prog T unit :=
  match header with
  | [] => pret tt
  | b :: rest =>
      do fmt_Print (fmt_x b ++ " ")%string in print_header rest
  end.

Definition nl : string := String Strings.newline "".

(** [main] from [defer r.Close()] on; its value is the loop state of the
    edge extraction when the last line is reached. *)
Definition main_session : Prog T Edges.LoopState :=
  do log_Println "Setting parameters and triggering..." in
  do* err := controller Trigger in
  match err with
  | Some e => log_Fatal (inr e)
  | None =>
  do log_Println "Waiting for trigger..." in
  do* err := controller WaitForCapture in
  match err with
  | Some e => log_Fatal (inr e)
  | None =>
  do log_Println "Trigger detected, fetching waveform data..." in
  do* wave := controller (FetchWaveformData "D0") in
  match wave with
  | inl e => log_Fatal (inr e)
  | inr (header, data) =>
  do* pre := controller (FetchPreamble float_zero ParseFloat) in
  match pre with
  | inl e => log_Fatal (inr e)
  | inr preamble =>
  do fmt_Print ("Points: " ++ fmt_d (Points preamble) ++ nl)%string in
  do fmt_Print ("Xincrement: " ++ fmt_9f (Xincrement preamble) ++ nl)%string in
  do fmt_Print ("Header:" ++ nl)%string in
  do print_header (elems header) in
  do fmt_Print (nl ++ "Data: (" ++ fmt_d (len data) ++ " samples)" ++ nl)%string in
  pret (Edges.find_edges Edges.main_pins data)
  end end end end.

(** [func main()]. *)
Definition main : Prog T Edges.LoopState :=
  do log_Println "Initializing..." in
  do* err := Init "TCPIP::192.168.1.70::INSTR" in
  match err with
  | Some e => log_Fatal (inl e)
  | None => deferring Close main_session
  end.

End Program.

(** The scripted instrument opens and closes without failing. *)
#[global] Instance Script_lib : VisaLib Script.Instr :=
  {| lib_OpenDefaultRM := fun s => (s, 0);
     rm_Open := fun s _ => (s, 0);
     instr_Close := fun s => s;
     rm_Close := fun s => s |}.

(** The commands written to the instrument, in order, and the tests
    for the closing calls, read off a trace of the program. *)
Definition sent_command (e : SessionEvent) : option string :=
  match e with
  | Io (EvWrite buf _) => Some (string_of_list_byte buf)
  | _ => None
  end.

Definition sent (tr : list SessionEvent) : list string :=
  omap sent_command tr.

Definition is_close (e : SessionEvent) : bool :=
  match e with
  | EvCloseInstr | EvCloseRM => true
  | _ => false
  end.

Arguments main_session {T H float64}.
Arguments main {T H H0 float64}.

(** [quiet c]: whatever the state, [c] only adds events to the trace,
    and none of them is a closing call. *)
Definition quiet {T A} (c : Prog T A) : Prop :=
  forall s, exists added,
    (c s).2.2 = s.2 ++ added
    /\ Forall (fun e => is_close e = false) added.

(** * Properties *)

(** ** Edge extraction *)

Section EdgeFacts.

Import Edges.

Lemma wrap64_small (x : Z) :
  - 2 ^ 63 <= x <= max_int64 -> wrap64 x = x.
Proof.
  unfold wrap64, max_int64. intros Hx.
  rewrite Z.mod_small by lia. lia.
Qed.

(** The pass over [pre ++ [b]] is the pass over [pre] followed by one
    iteration on [b]. *)
Lemma find_edges_snoc pins pre sp b :
  find_edges pins (mkSlice (pre ++ [b]) sp)
  = step (size pins) (find_edges pins (mkSlice pre sp)) b.
Proof. unfold find_edges. simpl. by rewrite fold_left_app. Qed.

(** While the slice is no longer than the largest [int64], the
    counter is the number of bytes consumed. *)
Lemma timestamp_find_edges pins l sp :
  Z.of_nat (length l) <= max_int64 ->
  timestamp (find_edges pins (mkSlice l sp)) = Z.of_nat (length l).
Proof.
  induction l as [|b pre IH] using rev_ind; intros Hlen; [done|].
  rewrite find_edges_snoc. rewrite length_app in *. simpl in *.
  unfold step. destruct (negb _); simpl;
    rewrite IH by lia; rewrite wrap64_small; unfold max_int64 in *; lia.
Qed.

Lemma last_find_edges pins pre sp b :
  last (find_edges pins (mkSlice (pre ++ [b]) sp)) = b.
Proof.
  rewrite find_edges_snoc. unfold step. by destruct (negb _).
Qed.

(** Every entry left by the loop over the pins is an old one or the
    current sample index. *)
Lemma pin_loop_lookup npins b l ts sc i t :
  pin_loop npins b l ts sc !! i = Some t -> t = ts \/ sc !! i = Some t.
Proof.
  unfold pin_loop. generalize (seq 0 npins) as js. intros js. revert sc.
  induction js as [|j js IH]; intros sc Hl; simpl in Hl; [by right|].
  apply IH in Hl as [->|Hl]; [by left|].
  destruct (pin_differs _ _ _); [|by right].
  destruct (decide (Z.of_nat j = i)) as [Heq|Hne].
  - subst i. rewrite lookup_insert_eq in Hl. left. congruence.
  - rewrite lookup_insert_ne in Hl by done. by right.
Qed.

Lemma step_transitions npins st b :
  transitions (step npins st b)
  = if negb (Byte.eqb b (last st))
    then <[timestamp st := b]> (transitions st) else transitions st.
Proof. unfold step. by destruct (negb _). Qed.

Lemma step_signalChanges npins st b :
  signalChanges (step npins st b)
  = if negb (Byte.eqb b (last st))
    then pin_loop npins b (last st) (timestamp st) (signalChanges st)
    else signalChanges st.
Proof. unfold step. by destruct (negb _). Qed.

Lemma byte_eqb_eq (a b : byte) : Byte.eqb a b = true <-> a = b.
Proof.
  split; [|intros ->; apply Byte.byte_dec_lb; reflexivity].
  apply Byte.byte_dec_bl.
Qed.

(** On a pin below 8 the test of the code compares bit 0 of the two
    bytes, whatever the pin. *)
Lemma pin_differs_is_bit0 (b l : byte) (i : Z) :
  0 <= i < 8 -> pin_differs b l i = spec_bit_differs b l 0.
Proof.
  intros Hi. unfold pin_differs, spec_bit_differs, masked, wrap8.
  rewrite !Z.bit0_odd.
  assert (Hm : forall x, Z.land x 1 = if Z.odd x then 1 else 0).
  { intros x. change 1 with (Z.ones 1). rewrite Z.land_ones by lia.
    rewrite Zmod_odd. change (2 ^ 1) with 2. reflexivity. }
  rewrite !Hm.
  assert (Hp : 1 <= 2 ^ i < 256).
  { split; [pose proof (Z.pow_pos_nonneg 2 i); lia|].
    change 256 with (2 ^ 8). apply Z.pow_lt_mono_r; lia. }
  destruct (Z.odd (byte_val b)), (Z.odd (byte_val l)); simpl;
    rewrite !Z.shiftl_mul_pow2 by lia;
    rewrite ?Z.mul_1_l, ?Z.mul_0_l, ?Zmod_0_l;
    rewrite ?(Z.mod_small (2 ^ i)) by lia;
    match goal with
    | |- negb (?x =? ?y) = _ => destruct (Z.eqb_spec x y)
    end; simpl; try reflexivity; lia.
Qed.

(** The state after the pass over [l], under the bound of a Go
    slice length: the entry at index 0 and what every recorded
    latest-change index points to. *)
Lemma find_edges_invariant pins l sp :
  Z.of_nat (length l) <= max_int64 ->
  let r := find_edges pins (mkSlice l sp) in
  transitions r !! 0 = Some (default x00 (head l))
  /\ forall i t, signalChanges r !! i = Some t ->
       0 <= t < Z.of_nat (length l)
       /\ transitions r !! t = l !! Z.to_nat t.
Proof.
  induction l as [|b pre IH] using rev_ind; intros Hlen r.
  { subst r. unfold find_edges. simpl.
    split; [apply lookup_singleton_eq|].
    intros i t Hl. by rewrite lookup_empty in Hl. }
  subst r. rewrite length_app in Hlen. simpl in Hlen.
  destruct IH as [IH0 IHsc]; [lia|].
  rewrite find_edges_snoc, step_transitions, step_signalChanges.
  rewrite timestamp_find_edges by lia.
  set (r := find_edges pins (mkSlice pre sp)) in *.
  assert (Hts : (pre ++ [b]) !! Z.to_nat (Z.of_nat (length pre)) = Some b).
  { rewrite Nat2Z.id. by rewrite list_lookup_middle. }
  assert (Hold : forall t, 0 <= t < Z.of_nat (length pre) ->
                 (pre ++ [b]) !! Z.to_nat t = pre !! Z.to_nat t).
  { intros t Ht. apply lookup_app_l. lia. }
  rewrite length_app. simpl.
  destruct (negb (Byte.eqb b (last r))) eqn:Hne; split.
  - destruct pre as [|a pre]; simpl in *.
    + by rewrite lookup_insert_eq.
    + rewrite lookup_insert_ne by lia. done.
  - intros i t Hl. apply pin_loop_lookup in Hl as [->|Hl].
    + split; [lia|]. by rewrite lookup_insert_eq, Hts.
    + destruct (IHsc i t Hl) as [Ht Hv]. split; [lia|].
      rewrite lookup_insert_ne by lia. by rewrite Hold.
  - destruct pre as [|a pre]; simpl in *; [|done].
    apply negb_false_iff, byte_eqb_eq in Hne. subst b. done.
  - intros i t Hl. destruct (IHsc i t Hl) as [Ht Hv]. split; [lia|].
    by rewrite Hold.
Qed.

(** Without any bound: a recorded latest-change index is a key of the
    transition log. *)
Lemma find_edges_changes_logged pins l sp i t :
  signalChanges (find_edges pins (mkSlice l sp)) !! i = Some t ->
  is_Some (transitions (find_edges pins (mkSlice l sp)) !! t).
Proof.
  revert i t. induction l as [|b pre IH] using rev_ind; intros i t.
  { unfold find_edges. simpl. intros Hl. by rewrite lookup_empty in Hl. }
  rewrite find_edges_snoc, step_transitions, step_signalChanges.
  destruct (negb _); [|apply IH].
  intros Hl. apply pin_loop_lookup in Hl as [->|Hl].
  - rewrite lookup_insert_eq. eauto.
  - apply IH in Hl. rewrite lookup_insert. case_decide; eauto.
Qed.

End EdgeFacts.

(** C1. On the payload [0x00, 0x00, 0x01, 0x01, 0x03] with the signal
    map {A:0, B:1} the code logs transitions exactly at the indices 0, 2
    and 4 and gives signal A the latest-change index 2, as the
    specification says; but it gives signal B the index 2 as well, where
    the algorithm of the specification (bit [i] of the byte against bit
    [i] of the previous byte) gives 4: the test of the code reads
    [(b&1)<<i], so it compares bit 0 for every signal. *)
Theorem find_edges_example_signal_B :
  let pins : gmap string Z := {[ "A" := 0; "B" := 1 ]}%string in
  let data := slice_of [x00; x00; x01; x01; x03] in
  Edges.transitions (Edges.find_edges pins data)
    = {[ 0 := x00; 2 := x01; 4 := x03 ]}
  /\ Edges.signalChanges (Edges.find_edges pins data) = {[ 0 := 2; 1 := 2 ]}
  /\ Edges.transitions (Edges.spec_find_edges pins data)
    = {[ 0 := x00; 2 := x01; 4 := x03 ]}
  /\ Edges.signalChanges (Edges.spec_find_edges pins data)
    = {[ 0 := 2; 1 := 4 ]}.
Proof. repeat split; vm_compute; reflexivity. Qed.

(** C9, as stated, fails: when the first sample byte is not zero the
    entry at index 0 is overwritten with that byte, and the final log
    holds (0, 0x01), not (0, 0x00). *)
Lemma initial_entry_overwritten :
  Edges.transitions (Edges.find_edges Edges.main_pins (slice_of [x01])) !! 0
  <> Some x00.
Proof. vm_compute. discriminate. Qed.

(** C9, amended. For every payload (of a length a Go slice can have)
    the final transition log has an entry at index 0; its value is the
    first sample byte, and 0x00 when the payload is empty. In particular
    the entry is (0, 0x00) when the first sample byte is zero. *)
Theorem transitions_index0 (pins : gmap string Z) (data : GoSlice) :
  len data <= max_int64 ->
  Edges.transitions (Edges.find_edges pins data) !! 0
  = Some (default x00 (head (elems data))).
Proof.
  destruct data as [l sp]. unfold len. simpl. intros Hlen.
  by apply find_edges_invariant.
Qed.

Lemma transitions_index0_witness :
  Edges.transitions
    (Edges.find_edges Edges.main_pins (slice_of [x00; x05; x05])) !! 0
  = Some x00.
Proof.
  apply (transitions_index0 Edges.main_pins (slice_of [x00; x05; x05])).
  vm_compute. discriminate.
Defined.

(** C10. After the pass, whenever the latest-change map gives the index
    [t] to a signal [i], the transition log has an entry at [t]; for a
    payload of a length a Go slice can have, [t] is a sample index of
    the payload and the entry is the byte observed there. *)
Theorem signalChanges_in_transitions
    (pins : gmap string Z) (data : GoSlice) (i t : Z) :
  Edges.signalChanges (Edges.find_edges pins data) !! i = Some t ->
  is_Some (Edges.transitions (Edges.find_edges pins data) !! t)
  /\ (len data <= max_int64 ->
      0 <= t < len data
      /\ Edges.transitions (Edges.find_edges pins data) !! t
         = elems data !! Z.to_nat t).
Proof.
  destruct data as [l sp]. intros Hl. split.
  - by eapply find_edges_changes_logged.
  - unfold len. simpl. intros Hlen.
    exact (proj2 (find_edges_invariant pins l sp Hlen) i t Hl).
Qed.

Lemma signalChanges_in_transitions_witness :
  is_Some (Edges.transitions
             (Edges.find_edges Edges.main_pins
                (slice_of [x00; x00; x01; x01; x03])) !! 2).
Proof.
  apply (signalChanges_in_transitions Edges.main_pins
           (slice_of [x00; x00; x01; x01; x03]) 0 2).
  vm_compute. reflexivity.
Defined.

(** ** The controller *)

Section ControllerFacts.

Context {T : Type} `{Visa T}.

Lemma Write_run (cmd : string) (w : World T) :
  Write cmd w
  = let '(i1, (_, st)) := send (instr w) cmd in
    (Ret (if st <? SUCCESS then Some (WriteError st) else None),
     mkWorld i1 (trace w ++ [write_event cmd])).
Proof.
  unfold Write, bind, call_Write, send, write_event. simpl.
  destruct (instr_Write _ _ _) as [i1 [n st]].
  by destruct (st <? SUCCESS).
Qed.

Lemma Read_run (k : Z) (w : World T) :
  Read k w
  = let '(i1, (d, _, st)) := instr_Read (instr w) k in
    (Ret (if st <? SUCCESS then inl (ReadError st) else inr d),
     mkWorld i1 (trace w ++ [EvRead k])).
Proof.
  unfold Read, bind, call_Read. simpl.
  destruct (instr_Read _ _) as [i1 [[d n] st]].
  by destruct (st <? SUCCESS).
Qed.

Lemma write_each_cons cmd cmds (w : World T) :
  write_each (cmd :: cmds) w
  = let '(i1, (_, st)) := send (instr w) cmd in
    let w1 := mkWorld i1 (trace w ++ [write_event cmd]) in
    if st <? SUCCESS then (Ret (Some (WriteError st)), w1)
    else write_each cmds w1.
Proof.
  simpl. unfold bind. rewrite Write_run.
  destruct (send _ _) as [i1 [n st]]. by destruct (st <? SUCCESS).
Qed.

(** Commands that are all accepted are all written, in order, and
    the loop goes on with what follows them. *)
Lemma write_each_app pre rest (w : World T) i1 :
  Written (instr w) pre i1 ->
  write_each (pre ++ rest) w
  = write_each rest (mkWorld i1 (trace w ++ map write_event pre)).
Proof.
  revert w. induction pre as [|cmd pre IH]; intros w Hw; inversion Hw; subst.
  - simpl. rewrite app_nil_r. by destruct w.
  - simpl app. rewrite write_each_cons.
    match goal with Hs : send _ _ = _ |- _ => rewrite Hs end.
    destruct (Z.ltb_spec st SUCCESS); [lia|].
    rewrite (IH (mkWorld i0 _)) by done. simpl.
    by rewrite <- app_assoc.
Qed.

Lemma write_each_nil (w : World T) : write_each [] w = (Ret None, w).
Proof. reflexivity. Qed.

Lemma first_line_total (s : string) :
  exists line, Strings.first_line s = Ret line.
Proof.
  unfold Strings.first_line, index.
  destruct s as [|a s]; simpl; [eauto|].
  destruct (Ascii.eqb a Strings.newline); simpl; [eauto|].
  destruct (Strings.split_on Strings.newline s); simpl; eauto.
Qed.

(** One pass through the body of the polling loop, in terms of the
    two calls it makes. *)
Lemma poll_once_run (w : World T) :
  poll_once w
  = let w0 := mkWorld (instr w) (trace w ++ [EvSleep 1000000000]) in
    let '(i1, (_, st)) := send (instr w) "TRIG:STAT?" in
    let w1 := mkWorld i1 (trace w0 ++ [write_event "TRIG:STAT?"]) in
    if st <? SUCCESS then (Ret (PollReturn (Some (WriteError st))), w1)
    else
      let '(i2, (d, _, st')) := instr_Read i1 100 in
      let w2 := mkWorld i2 (trace w1 ++ [EvRead 100]) in
      if st' <? SUCCESS then (Ret (PollReturn (Some (ReadError st'))), w2)
      else
        match Strings.first_line (string_of_bytes d) with
        | Ret state =>
            (Ret (if String.eqb state "STOP" then PollReturn None
                  else PollNext), w2)
        | Panic => (Panic, w2)
        end.
Proof.
  unfold poll_once, bind at 1, emit. unfold bind at 1. rewrite Write_run.
  simpl. destruct (send _ _) as [i1 [n st]].
  destruct (st <? SUCCESS); [done|].
  unfold bind at 1. rewrite Read_run. simpl.
  destruct (instr_Read _ _) as [i2 [[d m] st']].
  destruct (st' <? SUCCESS); [done|].
  unfold bind, lift. destruct (Strings.first_line _); [|done].
  by destruct (String.eqb _ _).
Qed.




(** A poll whose exchange succeeds with a first line other than
    [STOP] hands over to the next pass. *)
Lemma poll_once_next (w : World T) i1 n st i2 d m st' line :
  send (instr w) "TRIG:STAT?" = (i1, (n, st)) ->
  SUCCESS <= st ->
  instr_Read i1 100 = (i2, (d, m, st')) ->
  SUCCESS <= st' ->
  Strings.first_line (string_of_bytes d) = Ret line ->
  poll_once w
  = (Ret (if String.eqb line "STOP" then PollReturn None else PollNext),
     mkWorld i2 (trace w ++ poll_events)).
Proof.
  intros Hs Hst Hr Hst' Hl. rewrite poll_once_run, Hs.
  destruct (Z.ltb_spec st SUCCESS); [lia|]. rewrite Hr.
  destruct (Z.ltb_spec st' SUCCESS); [lia|]. rewrite Hl. simpl.
  by rewrite <- !app_assoc.
Qed.

(** Polls that never answer [STOP] use up the passes one by one. *)
Lemma wait_loop_Polled (k : nat) lines (w : World T) i' :
  Forall (fun l => l <> "STOP"%string) lines ->
  Polled (instr w) lines i' ->
  wait_loop (length lines + k) w
  = wait_loop k (mkWorld i' (trace w
                   ++ concat (replicate (length lines) poll_events))).
Proof.
  intros Hne. revert w. induction Hne as [|line lines Hline Hne IH];
    intros w Hp; inversion Hp; subst.
  - simpl. rewrite app_nil_r. by destruct w.
  - change (length (line :: lines) + k)%nat with (S (length lines + k)).
    cbn [wait_loop]. unfold bind at 1.
    erewrite poll_once_next by eassumption.
    apply String.eqb_neq in Hline. rewrite Hline.
    rewrite (IH (mkWorld _ _)) by eassumption.
    simpl. by rewrite <- app_assoc.
Qed.


(** A slice expression inside the visible part of a slice. *)
Lemma reslice_within (d : GoSlice) (lo hi : Z) :
  0 <= lo <= hi -> hi <= len d ->
  exists s, reslice d lo hi = Some s
    /\ elems s = take (Z.to_nat (hi - lo)) (drop (Z.to_nat lo) (elems d)).
Proof.
  intros Hlo Hhi. unfold reslice, cap, len in *.
  destruct (Z.leb_spec 0 lo); [|lia].
  destruct (Z.leb_spec lo hi); [|lia].
  destruct (Z.leb_spec hi (Z.of_nat (length (elems d) + length (spare d))));
    [|lia].
  simpl. eexists. split; [reflexivity|]. simpl.
  rewrite drop_app_le by lia.
  rewrite take_app_le; [done|]. rewrite length_drop. lia.
Qed.

Lemma reslice_inverted (d : GoSlice) (lo hi : Z) :
  hi < lo -> reslice d lo hi = None.
Proof.
  intros Hlt. unfold reslice.
  destruct (Z.leb_spec lo hi); [lia|]. by rewrite andb_false_r.
Qed.

(** [FetchWaveformData] up to the slice expressions of its [return],
    when the setup is accepted and the read succeeds. *)
Lemma FetchWaveformData_run source (w : World T) i1 i2 d m st :
  Written (instr w) (waveform_setup source) i1 ->
  instr_Read i1 125000 = (i2, (d, m, st)) ->
  SUCCESS <= st ->
  FetchWaveformData source w
  = (match reslice d 0 11 with
     | None => Panic
     | Some header =>
         match reslice d 11 (len d - 1) with
         | None => Panic
         | Some data => Ret (inr (header, data))
         end
     end,
     mkWorld i2 (trace w ++ map write_event (waveform_setup source)
                 ++ [EvRead 125000])).
Proof.
  intros Hw Hr Hst. unfold FetchWaveformData, bind at 1.
  rewrite <- (app_nil_r (waveform_setup source)) at 1.
  rewrite (write_each_app _ [] w i1 Hw), write_each_nil.
  unfold bind at 1. rewrite Read_run. simpl. rewrite Hr.
  destruct (Z.ltb_spec st SUCCESS); [lia|].
  rewrite <- app_assoc.
  destruct (reslice d 0 11); [|done].
  by destruct (reslice d 11 (len d - 1)).
Qed.

End ControllerFacts.

(** C5, as stated, fails: a write that reports a byte count other than
    the length of the command, with a status that is not an error, does
    not stop the batch. Here the first write of [Trigger] reports 0
    bytes for the 14 bytes of [:CHAN1:DISP ON]; [Trigger] returns no
    error and all 21 commands are sent. *)
Lemma short_count_not_detected :
  let w := Script.start [(0, 0)] [] in
  (send (instr w) ":CHAN1:DISP ON").2 = (0, 0)
  /\ String.length ":CHAN1:DISP ON" = 14%nat
  /\ (Trigger w).1 = Ret None
  /\ trace (Trigger w).2 = map write_event trigger_setup.
Proof. vm_compute. repeat split. Qed.

(** C5, amended. The batch loop writes each command in order. It fails
    immediately on the first command whose write returns a status below
    [SUCCESS] (the returned byte count is not looked at), with that
    status in the error, and sends none of the commands after it: the
    trace holds the commands up to the failing one and nothing more.
    When every write returns a status that is not below [SUCCESS], all
    commands are written and no error is returned. *)
Theorem write_each_stops_at_first_failure
    {T : Type} `{Visa T} (w : World T) :
  (forall pre cmd post i1 i2 n st,
     Written (instr w) pre i1 ->
     send i1 cmd = (i2, (n, st)) ->
     st < SUCCESS ->
     write_each (pre ++ cmd :: post) w
     = (Ret (Some (WriteError st)),
        mkWorld i2 (trace w ++ map write_event (pre ++ [cmd]))))
  /\ (forall cmds i',
       Written (instr w) cmds i' ->
       write_each cmds w
       = (Ret None, mkWorld i' (trace w ++ map write_event cmds))).
Proof.
  split.
  - intros pre cmd post i1 i2 n st Hpre Hs Hst.
    rewrite (write_each_app pre _ w i1 Hpre), write_each_cons. simpl.
    rewrite Hs. destruct (Z.ltb_spec st SUCCESS); [|lia].
    by rewrite map_app, app_assoc.
  - intros cmds i' Hw.
    rewrite <- (app_nil_r cmds) at 1.
    by rewrite (write_each_app cmds [] w i' Hw).
Qed.

Lemma write_each_stops_at_first_failure_witness :
  write_each [":CHAN1:DISP ON"; ":CHAN1:PROB 10"; ":SING"]%string
             (Script.start [(14, 0); (14, -5)] [])
  = (Ret (Some (WriteError (-5))),
     mkWorld (Script.mkInstr [] [])
             (map write_event [":CHAN1:DISP ON"; ":CHAN1:PROB 10"]%string)).
Proof.
  apply (proj1 (write_each_stops_at_first_failure
                  (Script.start [(14, 0); (14, -5)] []))
           [":CHAN1:DISP ON"%string] ":CHAN1:PROB 10"%string [":SING"%string]
           (Script.mkInstr [(14, -5)] []) (Script.mkInstr [] []) 14 (-5)).
  - eapply Written_cons; [reflexivity | simpl; lia | apply Written_nil].
  - reflexivity.
  - simpl. lia.
Defined.



(** C8. When the setup commands are accepted and the read succeeds
    with a response [d] of length [L >= 12], [FetchWaveformData] returns
    the header [d[0:11]], of length 11, and the payload [d[11:L-1]], of
    length [L - 12]; the response is the header, then the payload, then
    one last byte, the terminator at index [L - 1], which is in neither.
    For [L = 125000] the payload has length 124988 and the terminator is
    the byte at index 124999. *)
Theorem FetchWaveformData_split
    {T : Type} `{Visa T} (source : string) (w : World T) i1 i2 d m st :
  Written (instr w) (waveform_setup source) i1 ->
  instr_Read i1 125000 = (i2, (d, m, st)) ->
  SUCCESS <= st ->
  12 <= len d ->
  exists header data terminator,
    (FetchWaveformData source w).1 = Ret (inr (header, data))
    /\ elems header = take 11 (elems d)
    /\ elems data = take (Z.to_nat (len d - 12)) (drop 11 (elems d))
    /\ len header = 11
    /\ len data = len d - 12
    /\ elems d !! Z.to_nat (len d - 1) = Some terminator
    /\ elems d = elems header ++ elems data ++ [terminator]
    /\ (len d = 125000 ->
        len data = 124988
        /\ elems d !! Z.to_nat 124999 = Some terminator).
Proof.
  intros Hw Hr Hst HL.
  rewrite (FetchWaveformData_run source w i1 i2 d m st Hw Hr Hst). simpl.
  destruct (reslice_within d 0 11) as (header & -> & Hh); [lia..|].
  destruct (reslice_within d 11 (len d - 1)) as (data & -> & Hd); [lia..|].
  simpl in Hh. rewrite drop_0 in Hh.
  replace (len d - 1 - 11) with (len d - 12) in Hd by lia.
  change (Z.to_nat 11) with 11%nat in Hd.
  unfold len in *. set (l := elems d) in *.
  assert (Hlh : length (elems header) = 11%nat).
  { rewrite Hh, length_take. lia. }
  assert (Hld : length (elems data) = (length l - 12)%nat).
  { rewrite Hd, length_take, length_drop. lia. }
  assert (Hlast : exists t, drop (length l - 1) l = [t]).
  { destruct (drop (length l - 1) l) as [|t [|t' rest]] eqn:Hdr.
    - apply (f_equal length) in Hdr. rewrite length_drop in Hdr.
      simpl in Hdr. lia.
    - eauto.
    - apply (f_equal length) in Hdr. rewrite length_drop in Hdr.
      simpl in Hdr. lia. }
  destruct Hlast as [t Ht].
  assert (Hsplit : l = elems header ++ elems data ++ [t]).
  { rewrite Hh, Hd, <- Ht.
    rewrite <- (take_drop 11 l) at 1. f_equal.
    rewrite <- (take_drop (Z.to_nat (Z.of_nat (length l) - 12)) (drop 11 l))
      at 1.
    f_equal. rewrite drop_drop. f_equal. lia. }
  assert (Hterm : l !! Z.to_nat (Z.of_nat (length l) - 1) = Some t).
  { replace (Z.to_nat (Z.of_nat (length l) - 1))
      with (length l - 1 + 0)%nat by lia.
    by rewrite <- lookup_drop, Ht. }
  exists header, data, t.
  do 7 (split; [done || lia|]).
  intros HL'. split; [lia|]. by rewrite <- Hterm, HL'.
Qed.

Lemma FetchWaveformData_split_witness :
  exists header data terminator,
    (FetchWaveformData "D0"
       (Script.start []
          [(slice_of [x23; x39; x30; x30; x30; x30; x30; x30; x30; x30; x33;
                      x00; x01; x03; x0a], 15, 0)])).1
    = Ret (inr (header, data))
    /\ elems header = [x23; x39; x30; x30; x30; x30; x30; x30; x30; x30; x33]
    /\ elems data = [x00; x01; x03]
    /\ terminator = x0a.
Proof.
  destruct (FetchWaveformData_split "D0"
    (Script.start []
       [(slice_of [x23; x39; x30; x30; x30; x30; x30; x30; x30; x30; x33;
                   x00; x01; x03; x0a], 15, 0)])
    (Script.mkInstr []
       [(slice_of [x23; x39; x30; x30; x30; x30; x30; x30; x30; x30; x33;
                   x00; x01; x03; x0a], 15, 0)])
    (Script.mkInstr [] [])
    (slice_of [x23; x39; x30; x30; x30; x30; x30; x30; x30; x30; x33;
               x00; x01; x03; x0a]) 15 0)
    as (header & data & t & Hrun & Hh & Hd & _ & _ & Ht & _).
  - repeat (eapply Written_cons; [reflexivity | simpl; lia |]).
    apply Written_nil.
  - reflexivity.
  - simpl. lia.
  - vm_compute. discriminate.
  - exists header, data, t. repeat split; try assumption.
    vm_compute in Ht. congruence.
Defined.

(** C3. When the setup commands are accepted and the read succeeds
    with fewer than 12 bytes, [FetchWaveformData] does not return an
    error: the second slice expression of its [return] has its low bound
    above its high bound (or the first one exceeds the capacity), and
    the call panics. *)
Theorem FetchWaveformData_short_read_panics
    {T : Type} `{Visa T} (source : string) (w : World T) i1 i2 d m st :
  Written (instr w) (waveform_setup source) i1 ->
  instr_Read i1 125000 = (i2, (d, m, st)) ->
  SUCCESS <= st ->
  len d < 12 ->
  (FetchWaveformData source w).1 = Panic.
Proof.
  intros Hw Hr Hst HL.
  rewrite (FetchWaveformData_run source w i1 i2 d m st Hw Hr Hst). simpl.
  rewrite (reslice_inverted d 11 (len d - 1)) by lia.
  by destruct (reslice d 0 11).
Qed.

Lemma FetchWaveformData_short_read_panics_witness :
  (FetchWaveformData "D0"
     (Script.start [] [(slice_of [x23; x30; x0a], 3, 0)])).1 = Panic.
Proof.
  apply (FetchWaveformData_short_read_panics "D0"
           (Script.start [] [(slice_of [x23; x30; x0a], 3, 0)])
           (Script.mkInstr [] [(slice_of [x23; x30; x0a], 3, 0)])
           (Script.mkInstr [] [])
           (slice_of [x23; x30; x0a]) 3 0).
  - repeat (eapply Written_cons; [reflexivity | simpl; lia |]).
    apply Written_nil.
  - reflexivity.
  - simpl. lia.
  - vm_compute. reflexivity.
Defined.

(** ** The preamble parser *)

Section PreambleFacts.

Variable float64 : Type.
Variable float_zero : float64.
Variable ParseFloat : string -> Strconv.NumError + float64.

Local Abbreviation parse_line := (parse_preamble float_zero ParseFloat).

Lemma field_ok {V} (parse : string -> Strconv.NumError + V)
    parts k (assign : V -> Preamble float64 -> Preamble float64)
    p rest tok v :
  parts !! k = Some tok -> parse tok = inr v ->
  field parse parts k assign p rest = rest (assign v p).
Proof. unfold field, index. by intros -> ->. Qed.

Lemma field_err {V} (parse : string -> Strconv.NumError + V)
    parts k (assign : V -> Preamble float64 -> Preamble float64)
    p rest tok e :
  parts !! k = Some tok -> parse tok = inl e ->
  field parse parts k assign p rest = Ret (inl (ConvError e)).
Proof. unfold field, index. by intros -> ->. Qed.

Lemma field_missing {V} (parse : string -> Strconv.NumError + V)
    parts k (assign : V -> Preamble float64 -> Preamble float64)
    p rest :
  parts !! k = None -> field parse parts k assign p rest = Panic.
Proof. unfold field, index. by intros ->. Qed.

Lemma field_inv {V} (parse : string -> Strconv.NumError + V)
    parts k (assign : V -> Preamble float64 -> Preamble float64)
    p rest q :
  field parse parts k assign p rest = Ret (inr q) ->
  exists tok v, parts !! k = Some tok /\ parse tok = inr v
                /\ rest (assign v p) = Ret (inr q).
Proof.
  unfold field, index. destruct (parts !! k) as [tok|]; [|done].
  destruct (parse tok) as [e|v] eqn:Ep; [intros Hx; discriminate Hx|].
  intros Hr. exists tok, v. done.
Qed.

(** A token without conversion error converts. *)
Lemma conv_error_int k tok :
  is_float_field k = false -> conv_error ParseFloat k tok = None ->
  exists v, Strconv.ParseInt tok = inr v.
Proof.
  unfold conv_error. intros ->.
  destruct (Strconv.ParseInt tok); [done | eauto].
Qed.

Lemma conv_error_float k tok :
  is_float_field k = true -> conv_error ParseFloat k tok = None ->
  exists v, ParseFloat tok = inr v.
Proof.
  unfold conv_error. intros ->. destruct (ParseFloat tok); [done | eauto].
Qed.

(** Pass the field at the head of the goal, given that its token
    [Etok] has no conversion error [Hc]. *)
Ltac pass_field Etok Hc :=
  first
    [ apply conv_error_int in Hc as [? Hc]; [|reflexivity]
    | apply conv_error_float in Hc as [? Hc]; [|reflexivity] ];
  rewrite (field_ok _ _ _ _ _ _ _ _ Etok Hc).

(** The first field that does not convert decides the result. *)
Lemma parse_preamble_first_error line k tok e :
  (k < 10)%nat ->
  Strings.split_on Strings.comma line !! k = Some tok ->
  conv_error ParseFloat k tok = Some e ->
  (forall j tok', (j < k)%nat ->
     Strings.split_on Strings.comma line !! j = Some tok' ->
     conv_error ParseFloat j tok' = None) ->
  parse_line line = Ret (inl (ConvError e)).
Proof.
  intros Hk Htok He Hpre. unfold parse_preamble.
  set (parts := Strings.split_on Strings.comma line) in *.
  pose proof (lookup_lt_Some _ _ _ Htok) as Hlen.
  repeat match goal with
  | |- field _ _ ?j _ _ _ = _ =>
      destruct (decide (j = k)) as [Heq|?];
      [ subst k; unfold conv_error in He; simpl in He;
        match type of He with
        | match ?c with _ => _ end = _ =>
            destruct c as [e'|] eqn:Ec; [|discriminate]
        end;
        injection He as ->;
        exact (field_err _ _ _ _ _ _ _ _ Htok Ec)
      | let tj := fresh "tj" in
        let Ej := fresh "Ej" in
        let Hc := fresh "Hc" in
        destruct (lookup_lt_is_Some_2 parts j) as [tj Ej]; [lia|];
        pose proof (Hpre j tj ltac:(lia) Ej) as Hc;
        pass_field Ej Hc ]
  end.
  lia.
Qed.

(** With fewer than ten fields, all of which convert, the index
    expression of the first missing field panics. *)
Lemma parse_preamble_too_short line :
  (field_count line < 10)%nat ->
  (forall k tok,
     Strings.split_on Strings.comma line !! k = Some tok ->
     conv_error ParseFloat k tok = None) ->
  parse_line line = Panic.
Proof.
  unfold field_count. intros Hcount Hall. unfold parse_preamble.
  set (parts := Strings.split_on Strings.comma line) in *.
  repeat match goal with
  | |- field _ _ ?j _ _ _ = _ =>
      let tj := fresh "tj" in
      let Ej := fresh "Ej" in
      let Hc := fresh "Hc" in
      destruct (parts !! j) as [tj|] eqn:Ej;
      [ pose proof (Hall j tj Ej) as Hc; pass_field Ej Hc
      | exact (field_missing _ _ _ _ _ _ Ej) ]
  end.
  match goal with
  | E : parts !! 9%nat = Some _ |- _ => apply lookup_lt_Some in E; lia
  end.
Qed.

(** Success, field by field. *)
Lemma parse_preamble_success_iff line (p : Preamble float64) :
  parse_line line = Ret (inr p) <->
  parsed_at Strconv.ParseInt line 0 (Format p)
  /\ parsed_at Strconv.ParseInt line 1 (Type_ p)
  /\ parsed_at Strconv.ParseInt line 2 (Points p)
  /\ parsed_at Strconv.ParseInt line 3 (Count p)
  /\ parsed_at ParseFloat line 4 (Xincrement p)
  /\ parsed_at ParseFloat line 5 (Xorigin p)
  /\ parsed_at Strconv.ParseInt line 6 (Xref p)
  /\ parsed_at ParseFloat line 7 (Yincrement p)
  /\ parsed_at Strconv.ParseInt line 8 (Yorigin p)
  /\ parsed_at Strconv.ParseInt line 9 (Yref p).
Proof.
  unfold parsed_at, parse_preamble.
  set (parts := Strings.split_on Strings.comma line). split.
  - intros Hrun.
    repeat match type of Hrun with
    | field _ _ _ _ _ _ = _ =>
        apply field_inv in Hrun as (? & ? & ? & ? & Hrun)
    end.
    injection Hrun as <-. simpl. repeat split; eauto.
  - intros (H0 & H1 & H2 & H3 & H4 & H5 & H6 & H7 & H8 & H9).
    repeat match goal with
    | Hx : exists tok, _ /\ _ |- _ => destruct Hx as (? & ? & ?)
    end.
    repeat (erewrite field_ok by eassumption).
    by destruct p.
Qed.

Context {T : Type} `{Visa T}.

(** [FetchPreamble], when the query is accepted and the read
    succeeds, parses the first line of the response. *)
Lemma FetchPreamble_run (w : World T) i1 n st i2 d m st' line :
  send (instr w) ":WAV:PRE?" = (i1, (n, st)) ->
  SUCCESS <= st ->
  instr_Read i1 100 = (i2, (d, m, st')) ->
  SUCCESS <= st' ->
  Strings.first_line (string_of_bytes d) = Ret line ->
  (FetchPreamble float_zero ParseFloat w).1 = parse_line line.
Proof.
  intros Hs Hst Hr Hst' Hl. unfold FetchPreamble, bind at 1.
  rewrite Write_run, Hs. destruct (Z.ltb_spec st SUCCESS); [lia|].
  unfold bind at 1. rewrite Read_run. simpl. rewrite Hr.
  destruct (Z.ltb_spec st' SUCCESS); [lia|].
  unfold bind, lift, emit. rewrite Hl. simpl.
  by destruct (parse_preamble _ _ _).
Qed.

End PreambleFacts.

(** C2. A line with fewer than 10 comma-separated fields, all of which
    convert, makes the parser panic on the index expression of the
    first missing field: no error is returned. The line [1,2,1000] is
    such a line. (A short line with a field that does not convert
    returns the error of that field, see
    [parse_preamble_first_error].) *)
Theorem parse_preamble_short_line_panics
    {float64 : Type} (float_zero : float64)
    (ParseFloat : string -> Strconv.NumError + float64) (line : string) :
  (field_count line < 10)%nat ->
  (forall k tok,
     Strings.split_on Strings.comma line !! k = Some tok ->
     conv_error ParseFloat k tok = None) ->
  parse_preamble float_zero ParseFloat line = Panic.
Proof. apply parse_preamble_too_short. Qed.

Lemma parse_preamble_short_line_panics_witness :
  parse_preamble F64.zero F64.ParseFloat "1,2,1000" = Panic.
Proof.
  apply (parse_preamble_short_line_panics F64.zero F64.ParseFloat "1,2,1000").
  - vm_compute. lia.
  - intros k tok.
    change (Strings.split_on Strings.comma "1,2,1000")
      with ["1"; "2"; "1000"]%string.
    destruct k as [|[|[|k]]]; simpl; intros Hk;
      [injection Hk as <-; reflexivity .. | discriminate Hk].
Defined.

(** The same through [FetchPreamble]: the instrument answers the query
    with the line [1,2,1000]. *)
Example FetchPreamble_short_line
    {float64 : Type} (float_zero : float64)
    (ParseFloat : string -> Strconv.NumError + float64) :
  (FetchPreamble float_zero ParseFloat
     (Script.start []
        [Script.answer ("1,2,1000" ++ String Strings.newline "")])).1
  = Panic.
Proof. reflexivity. Qed.

(** C6, as stated, fails: a line with 11 fields is accepted, the
    eleventh field is never looked at. *)
Lemma eleven_fields_accepted :
  field_count "0,2,1000,1,0.1,-0.5,0,1,-7,+9,zz" = 11%nat
  /\ exists p, parse_preamble F64.zero F64.ParseFloat
                 "0,2,1000,1,0.1,-0.5,0,1,-7,+9,zz" = Ret (inr p).
Proof. split; [reflexivity|]. eexists. vm_compute. reflexivity. Qed.

(** C6, amended. Preamble parsing requires at least 10 comma-separated
    fields and ignores any field after the tenth. It succeeds exactly
    when each of the first ten tokens converts as its position
    declares, and then each field of the returned [Preamble] is the
    converted value of the token at its position: [Format] from field
    0, [Type] from 1, [Points] from 2, [Count] from 3 (integers),
    [Xincrement] from 4, [Xorigin] from 5 (reals), [Xref] from 6
    (integer), [Yincrement] from 7 (real), [Yorigin] from 8 and [Yref]
    from 9 (integers). *)
Theorem parse_preamble_success
    {float64 : Type} (float_zero : float64)
    (ParseFloat : string -> Strconv.NumError + float64)
    (line : string) (p : Preamble float64) :
  (parse_preamble float_zero ParseFloat line = Ret (inr p) <->
   parsed_at Strconv.ParseInt line 0 (Format p)
   /\ parsed_at Strconv.ParseInt line 1 (Type_ p)
   /\ parsed_at Strconv.ParseInt line 2 (Points p)
   /\ parsed_at Strconv.ParseInt line 3 (Count p)
   /\ parsed_at ParseFloat line 4 (Xincrement p)
   /\ parsed_at ParseFloat line 5 (Xorigin p)
   /\ parsed_at Strconv.ParseInt line 6 (Xref p)
   /\ parsed_at ParseFloat line 7 (Yincrement p)
   /\ parsed_at Strconv.ParseInt line 8 (Yorigin p)
   /\ parsed_at Strconv.ParseInt line 9 (Yref p))
  /\ (parse_preamble float_zero ParseFloat line = Ret (inr p) ->
      (10 <= field_count line)%nat).
Proof.
  split; [apply parse_preamble_success_iff|].
  intros Hrun. apply parse_preamble_success_iff in Hrun.
  destruct Hrun as (_ & _ & _ & _ & _ & _ & _ & _ & _ & (tok & Htok & _)).
  apply lookup_lt_Some in Htok. unfold field_count. lia.
Qed.

Lemma parse_preamble_success_witness :
  (10 <= field_count "0,2,1000,1,0.1,-0.5,0,1,-7,+9")%nat.
Proof.
  apply (proj2 (parse_preamble_success F64.zero F64.ParseFloat
                  "0,2,1000,1,0.1,-0.5,0,1,-7,+9"
                  (mkPreamble 0 2 1000 1
                     (S754_finite false 7205759403792794 (-56))
                     (S754_finite true 4503599627370496 (-53))
                     0
                     (S754_finite false 4503599627370496 (-52))
                     (-7) 9))).
  vm_compute. reflexivity.
Defined.

(** C7. When some token among the first ten fields fails to convert as
    its position declares, parsing fails on the first such field: the
    result is the conversion error of that token, and no [Preamble]
    comes with it. The line [x,2,1000,1,0.1,0,0,1,0,0] fails at field
    0. *)
Theorem parse_preamble_fails_at_first_bad_field
    {float64 : Type} (float_zero : float64)
    (ParseFloat : string -> Strconv.NumError + float64)
    (line : string) (k : nat) (tok : string) (e : Strconv.NumError) :
  field_count line = 10%nat ->
  Strings.split_on Strings.comma line !! k = Some tok ->
  conv_error ParseFloat k tok = Some e ->
  (forall j tok', (j < k)%nat ->
     Strings.split_on Strings.comma line !! j = Some tok' ->
     conv_error ParseFloat j tok' = None) ->
  parse_preamble float_zero ParseFloat line = Ret (inl (ConvError e)).
Proof.
  intros Hcount Htok. apply parse_preamble_first_error; [|done].
  apply lookup_lt_Some in Htok. unfold field_count in Hcount. lia.
Qed.

Lemma parse_preamble_fails_at_first_bad_field_witness :
  parse_preamble F64.zero F64.ParseFloat "x,2,1000,1,0.1,0,0,1,0,0"
  = Ret (inl (ConvError
                (Strconv.mkNumError "ParseInt" "x" Strconv.ErrSyntax))).
Proof.
  apply (parse_preamble_fails_at_first_bad_field F64.zero F64.ParseFloat
           "x,2,1000,1,0.1,0,0,1,0,0" 0 "x").
  - reflexivity.
  - reflexivity.
  - reflexivity.
  - intros j tok' Hj. lia.
Defined.


(** * Further properties of the code *)

(** ** The edge-extraction loop *)

Section EdgeLoop.

Variable pins : gmap string Z.

(** The loop over the pins, entry by entry. *)
Lemma pin_loop_lookup_exact (n : nat) b l ts sc (i : Z) :
  Edges.pin_loop n b l ts sc !! i
  = if decide (0 <= i < Z.of_nat n)
    then (if Edges.pin_differs b l i then Some ts else sc !! i)
    else sc !! i.
Proof.
  unfold Edges.pin_loop. induction n as [|n IH].
  { simpl. case_decide; [lia | done]. }
  rewrite seq_S, fold_left_app. simpl.
  destruct (decide (i = Z.of_nat n)) as [->|Hne].
  - rewrite decide_True by lia.
    destruct (Edges.pin_differs b l (Z.of_nat n)).
    + by rewrite lookup_insert_eq.
    + rewrite IH. by rewrite decide_False by lia.
  - assert (Hstep :
      (if Edges.pin_differs b l (Z.of_nat n)
       then <[Z.of_nat n := ts]>
              (fold_left (fun sc0 j => if Edges.pin_differs b l (Z.of_nat j)
                                       then <[Z.of_nat j := ts]> sc0 else sc0)
                         (seq 0 n) sc)
       else fold_left (fun sc0 j => if Edges.pin_differs b l (Z.of_nat j)
                                    then <[Z.of_nat j := ts]> sc0 else sc0)
                      (seq 0 n) sc) !! i
      = fold_left (fun sc0 j => if Edges.pin_differs b l (Z.of_nat j)
                                then <[Z.of_nat j := ts]> sc0 else sc0)
                  (seq 0 n) sc !! i).
    { destruct (Edges.pin_differs b l (Z.of_nat n)); [|done].
      by rewrite lookup_insert_ne. }
    rewrite Hstep, IH.
    destruct (decide (0 <= i < Z.of_nat n)).
    + by rewrite decide_True by lia.
    + by rewrite decide_False by lia.
Qed.

(** On a pin from 8 on, the shifted bit falls out of the byte: the
    test never holds. *)
Lemma pin_differs_high (b l : byte) (i : Z) :
  8 <= i -> Edges.pin_differs b l i = false.
Proof.
  intros Hi. unfold Edges.pin_differs, Edges.masked, wrap8.
  assert (Hz : forall v, Z.shiftl v i mod 256 = 0).
  { intros v. rewrite Z.shiftl_mul_pow2 by lia.
    replace i with ((i - 8) + 8) by lia.
    rewrite Z.pow_add_r by lia. change (2 ^ 8) with 256.
    rewrite Z.mul_assoc. apply Z_mod_mult. }
  by rewrite !Hz.
Qed.

Lemma pin_differs_low (b l : byte) (i : Z) :
  0 <= i < 8 -> Edges.pin_differs b l i = bit0_differs b l.
Proof. apply pin_differs_is_bit0. Qed.

(** [last] after the pass: the final byte, 0x00 for an empty payload. *)
Lemma last_after_pass l sp :
  Edges.last (Edges.find_edges pins (mkSlice l sp))
  = default x00 (list.last l).
Proof.
  destruct l as [|a l] using rev_ind; [done|].
  by rewrite last_find_edges, last_snoc.
Qed.

Lemma prev_byte_snoc_end pre (c : byte) :
  prev_byte (pre ++ [c]) (length pre) = default x00 (list.last pre).
Proof.
  destruct pre as [|a pre] using rev_ind; [done|].
  rewrite length_app, last_snoc. simpl.
  replace (length pre + 1)%nat with (S (length pre)) by lia. simpl.
  rewrite <- app_assoc. simpl. by rewrite list_lookup_middle.
Qed.

Lemma prev_byte_snoc_before pre (c : byte) (t : nat) :
  (t < length pre)%nat -> prev_byte (pre ++ [c]) t = prev_byte pre t.
Proof.
  destruct t as [|t]; [done|]. intros Ht. simpl.
  by rewrite lookup_app_l by lia.
Qed.

Lemma flips_bit0_snoc pre (c : byte) (t : Z) :
  flips_bit0 (pre ++ [c]) t
  = if decide (t = Z.of_nat (length pre))
    then bit0_differs c (default x00 (list.last pre))
    else flips_bit0 pre t.
Proof.
  unfold flips_bit0. destruct (Z.leb_spec 0 t) as [Ht|Ht]; simpl.
  2: { by rewrite decide_False by lia. }
  case_decide as Heq.
  - subst t. rewrite Nat2Z.id, list_lookup_middle by done.
    by rewrite prev_byte_snoc_end.
  - destruct (decide (Z.to_nat t < length pre)%nat) as [Hlt|Hge].
    + rewrite lookup_app_l by done. by rewrite prev_byte_snoc_before.
    + rewrite !lookup_ge_None_2; [done | lia |].
      rewrite length_app. simpl. lia.
Qed.

Lemma flips_bit0_beyond l (t : Z) :
  Z.of_nat (length l) <= t -> flips_bit0 l t = false.
Proof.
  intros Ht. unfold flips_bit0. rewrite lookup_ge_None_2 by lia.
  apply andb_false_r.
Qed.

End EdgeLoop.

(** X1. The transition log, key by key: for a payload of a length a Go
    slice can have, a key [t] other than 0 holds the byte [b] exactly
    when [t] is a positive sample index, the sample there is [b] and
    the sample before it is another byte. Keys below 0 or beyond the
    payload are never set. *)
Theorem transitions_entries
    (pins : gmap string Z) (data : GoSlice) (t : Z) (b : byte) :
  len data <= max_int64 ->
  t <> 0 ->
  Edges.transitions (Edges.find_edges pins data) !! t = Some b
  <-> 0 < t
      /\ elems data !! Z.to_nat t = Some b
      /\ elems data !! Z.to_nat (t - 1) <> Some b.
Proof.
  destruct data as [l sp]. unfold len. simpl. intros Hlen Ht.
  revert b. induction l as [|c pre IH] using rev_ind; intros b.
  { unfold Edges.find_edges. simpl. rewrite lookup_singleton_ne by done.
    split; [done|]. by intros (_ & Hl & _). }
  rewrite length_app in Hlen. simpl in Hlen.
  rewrite find_edges_snoc, step_transitions, last_after_pass.
  rewrite timestamp_find_edges by lia.
  assert (IH' := fun b => IH ltac:(lia) b). clear IH.
  destruct (decide (t = Z.of_nat (length pre))) as [->|Hne].
  - assert (Hnone : Edges.transitions
                      (Edges.find_edges pins (mkSlice pre sp))
                    !! Z.of_nat (length pre) = None).
    { apply eq_None_not_Some. intros [b' Hb].
      apply IH' in Hb as (_ & Hb & _).
      rewrite Nat2Z.id in Hb. apply lookup_lt_Some in Hb. lia. }
    assert (Hprev : (pre ++ [c]) !! Z.to_nat (Z.of_nat (length pre) - 1)
                    = list.last pre).
    { rewrite last_lookup, lookup_app_l by lia. f_equal. lia. }
    rewrite Nat2Z.id, list_lookup_middle, Hprev by done.
    destruct (list.last pre) as [a|] eqn:Hlast.
    2: { apply last_None in Hlast. subst pre. simpl in Ht. lia. }
    simpl. destruct (Byte.eqb c a) eqn:Hca; simpl.
    + apply byte_eqb_eq in Hca. subst a. rewrite Hnone.
      split; [done|]. intros (_ & [= ->] & Hx). done.
    + rewrite lookup_insert_eq. split.
      * intros [= ->]. split; [lia|]. split; [done|].
        intros [= ->].
        rewrite (proj2 (byte_eqb_eq _ _) eq_refl) in Hca. discriminate.
      * by intros (_ & [= ->] & _).
  - assert (Hsame : (if negb (Byte.eqb c (default x00 (list.last pre)))
                     then <[Z.of_nat (length pre) := c]>
                            (Edges.transitions
                               (Edges.find_edges pins (mkSlice pre sp)))
                     else Edges.transitions
                            (Edges.find_edges pins (mkSlice pre sp))) !! t
                    = Edges.transitions
                        (Edges.find_edges pins (mkSlice pre sp)) !! t).
    { destruct (negb _); [|done]. by rewrite lookup_insert_ne. }
    rewrite Hsame, IH'.
    destruct (decide (0 < t < Z.of_nat (length pre))) as [Hin|Hout].
    + rewrite !lookup_app_l by lia. done.
    + split; intros (Hpos & Hl & Hp); exfalso.
      * apply lookup_lt_Some in Hl. lia.
      * apply lookup_lt_Some in Hl. rewrite length_app in Hl.
        simpl in Hl. lia.
Qed.

Lemma transitions_entries_witness :
  Edges.transitions
    (Edges.find_edges Edges.main_pins (slice_of [x00; x00; x01; x01; x03]))
  !! 2 = Some x01.
Proof.
  apply (proj2 (transitions_entries Edges.main_pins
                  (slice_of [x00; x00; x01; x01; x03]) 2 x01
                  ltac:(vm_compute; discriminate) ltac:(lia))).
  split; [lia|]. split; [reflexivity | discriminate].
Defined.

(** X2. The latest-change map, as the code fills it: for a payload of a
    length a Go slice can have and a pin below both [len(pins)] and 8,
    the entry of the pin is the last sample index where bit 0 of the
    sample differs from bit 0 of the byte before it (0x00 before the
    first sample), whatever the pin; the pin has no entry exactly when
    no sample flips bit 0. *)
Theorem signalChanges_latest_bit0_flip
    (pins : gmap string Z) (data : GoSlice) (i : Z) :
  len data <= max_int64 ->
  0 <= i < Z.of_nat (size pins) ->
  i < 8 ->
  match Edges.signalChanges (Edges.find_edges pins data) !! i with
  | Some t =>
      flips_bit0 (elems data) t = true
      /\ forall t', t < t' -> flips_bit0 (elems data) t' = false
  | None => forall t', flips_bit0 (elems data) t' = false
  end.
Proof.
  destruct data as [l sp]. unfold len. simpl. intros Hlen Hi Hi8.
  induction l as [|c pre IH] using rev_ind.
  { unfold Edges.find_edges. simpl. rewrite lookup_empty.
    intros t'. unfold flips_bit0. rewrite lookup_nil.
    apply andb_false_r. }
  rewrite length_app in Hlen. simpl in Hlen.
  specialize (IH ltac:(lia)).
  rewrite find_edges_snoc, step_signalChanges, last_after_pass.
  rewrite timestamp_find_edges by lia.
  set (sc := Edges.signalChanges (Edges.find_edges pins (mkSlice pre sp)))
    in *.
  set (p := default x00 (list.last pre)).
  assert (Hnew :
    (if negb (Byte.eqb c p)
     then Edges.pin_loop (size pins) c p (Z.of_nat (length pre)) sc
     else sc) !! i
    = if bit0_differs c p then Some (Z.of_nat (length pre)) else sc !! i).
  { destruct (Byte.eqb c p) eqn:Hcp; simpl.
    - apply byte_eqb_eq in Hcp. subst c. unfold bit0_differs.
      by rewrite Bool.eqb_reflx.
    - rewrite pin_loop_lookup_exact, decide_True by lia.
      by rewrite pin_differs_low by lia. }
  rewrite Hnew. clear Hnew.
  destruct (bit0_differs c p) eqn:Hflip.
  - split.
    + rewrite flips_bit0_snoc, decide_True by done. done.
    + intros t' Ht'. rewrite flips_bit0_snoc, decide_False by lia.
      apply flips_bit0_beyond. lia.
  - destruct (sc !! i) as [t|].
    + destruct IH as [Hat Hafter].
      assert (Hlt : t < Z.of_nat (length pre)).
      { destruct (Z.lt_ge_cases t (Z.of_nat (length pre))); [done|].
        rewrite flips_bit0_beyond in Hat by lia. done. }
      split.
      * rewrite flips_bit0_snoc, decide_False by lia. done.
      * intros t' Ht'. rewrite flips_bit0_snoc. case_decide; [done|].
        by apply Hafter.
    + intros t'. rewrite flips_bit0_snoc. case_decide; [done|]. apply IH.
Qed.

Lemma signalChanges_latest_bit0_flip_witness :
  match Edges.signalChanges
          (Edges.find_edges Edges.main_pins
             (slice_of [x00; x01; x03; x02])) !! 4 with
  | Some t =>
      flips_bit0 [x00; x01; x03; x02] t = true
      /\ forall t', t < t' -> flips_bit0 [x00; x01; x03; x02] t' = false
  | None => forall t', flips_bit0 [x00; x01; x03; x02] t' = false
  end.
Proof.
  apply (signalChanges_latest_bit0_flip Edges.main_pins
           (slice_of [x00; x01; x03; x02]) 4).
  - vm_compute. discriminate.
  - vm_compute. split; [discriminate | reflexivity].
  - lia.
Defined.

(** X3. For every payload, all pins below both [len(pins)] and 8 have
    the same entry in the latest-change map: the test of the loop does
    not depend on the pin. *)
Theorem signalChanges_same_for_all_pins
    (pins : gmap string Z) (data : GoSlice) (i j : Z) :
  0 <= i < Z.of_nat (size pins) -> i < 8 ->
  0 <= j < Z.of_nat (size pins) -> j < 8 ->
  Edges.signalChanges (Edges.find_edges pins data) !! i
  = Edges.signalChanges (Edges.find_edges pins data) !! j.
Proof.
  destruct data as [l sp]. intros Hi Hi8 Hj Hj8.
  induction l as [|c pre IH] using rev_ind; [done|].
  rewrite find_edges_snoc, step_signalChanges.
  destruct (negb _); [|done].
  rewrite !pin_loop_lookup_exact, !decide_True by lia.
  rewrite !pin_differs_low by lia. by rewrite IH.
Qed.

Lemma signalChanges_same_for_all_pins_witness :
  Edges.signalChanges
    (Edges.find_edges Edges.main_pins (slice_of [x00; x01; x03; x02])) !! 0
  = Edges.signalChanges
      (Edges.find_edges Edges.main_pins (slice_of [x00; x01; x03; x02])) !! 4.
Proof.
  apply (signalChanges_same_for_all_pins Edges.main_pins
           (slice_of [x00; x01; x03; x02]) 0 4);
    vm_compute; try split; try discriminate; reflexivity.
Defined.

(** X4. The keys of the latest-change map are pin indices: an entry
    exists only for a pin from 0 up to [len(pins) - 1], and never for a
    pin from 8 on, where the shifted bit falls out of the byte. *)
Theorem signalChanges_keys
    (pins : gmap string Z) (data : GoSlice) (i t : Z) :
  Edges.signalChanges (Edges.find_edges pins data) !! i = Some t ->
  0 <= i < Z.of_nat (size pins) /\ i < 8.
Proof.
  destruct data as [l sp]. revert t.
  induction l as [|c pre IH] using rev_ind; intros t.
  { unfold Edges.find_edges. simpl. by rewrite lookup_empty. }
  rewrite find_edges_snoc, step_signalChanges.
  destruct (negb _); [|apply IH].
  rewrite pin_loop_lookup_exact. case_decide as Hin; [|apply IH].
  destruct (Z.lt_ge_cases i 8) as [Hlt|Hge].
  - destruct (Edges.pin_differs _ _ _); [done | apply IH].
  - rewrite pin_differs_high by done. apply IH.
Qed.

Lemma signalChanges_keys_witness :
  0 <= 1 < Z.of_nat (size Edges.main_pins) /\ 1 < 8.
Proof.
  apply (signalChanges_keys Edges.main_pins
           (slice_of [x00; x01; x03; x02]) 1 3).
  vm_compute. reflexivity.
Defined.

(** X5. A payload that never leaves 0x00 leaves the log as it was
    before the loop: the single entry (0, 0x00), and no latest-change
    entry for any pin. *)
Theorem quiet_payload
    (pins : gmap string Z) (data : GoSlice) :
  Forall (fun b => b = x00) (elems data) ->
  Edges.transitions (Edges.find_edges pins data) = {[ 0 := x00 ]}
  /\ Edges.signalChanges (Edges.find_edges pins data) = ∅.
Proof.
  destruct data as [l sp]. simpl.
  induction l as [|c pre IH] using rev_ind; intros Hall; [done|].
  apply Forall_app in Hall as [Hpre Hc].
  apply Forall_inv in Hc. simpl in Hc. subst c.
  destruct (IH Hpre) as [IHt IHs].
  rewrite find_edges_snoc, step_transitions, step_signalChanges.
  rewrite last_after_pass.
  assert (Hlast : default x00 (list.last pre) = x00).
  { destruct (list.last pre) as [a|] eqn:Hl; [|done]. simpl.
    apply last_Some in Hl as [pre' ->].
    apply Forall_app in Hpre as [_ Ha]. by apply Forall_inv in Ha. }
  rewrite Hlast. simpl. done.
Qed.

Lemma quiet_payload_witness :
  Edges.transitions
    (Edges.find_edges Edges.main_pins (slice_of [x00; x00; x00]))
  = {[ 0 := x00 ]}
  /\ Edges.signalChanges
       (Edges.find_edges Edges.main_pins (slice_of [x00; x00; x00])) = ∅.
Proof.
  apply (quiet_payload Edges.main_pins (slice_of [x00; x00; x00])).
  repeat constructor.
Defined.

(** ** The controller, on any instrument *)

Section ControllerMore.

Context {T : Type} `{Visa T}.

(** What one pass of the polling loop can give: it never panics, it
    never gives the timeout error, and it hands over to the next pass
    only after a complete poll. *)
Lemma poll_once_cases (w : World T) :
  exists p,
    (poll_once w).1 = Ret p
    /\ match p with
       | PollNext => trace (poll_once w).2 = trace w ++ poll_events
       | PollReturn None => True
       | PollReturn (Some (WriteError st)) => st < SUCCESS
       | PollReturn (Some (ReadError st)) => st < SUCCESS
       | PollReturn (Some _) => False
       end.
Proof.
  rewrite poll_once_run. simpl.
  destruct (send _ _) as [i1 [n st]].
  destruct (Z.ltb_spec st SUCCESS); [eexists; split; [reflexivity|done]|].
  destruct (instr_Read _ _) as [i2 [[d m] st']].
  destruct (Z.ltb_spec st' SUCCESS); [eexists; split; [reflexivity|done]|].
  destruct (first_line_total (string_of_bytes d)) as [line ->].
  destruct (String.eqb line "STOP");
    eexists; (split; [reflexivity|]); simpl; [done|].
  by rewrite <- !app_assoc.
Qed.

Lemma wait_loop_cases (n : nat) (w : World T) :
  exists e,
    (wait_loop n w).1 = Ret e
    /\ match e with
       | None => True
       | Some TimeoutError =>
           trace (wait_loop n w).2
           = trace w ++ concat (replicate n poll_events)
       | Some (WriteError st) => st < SUCCESS
       | Some (ReadError st) => st < SUCCESS
       | Some (ConvError _) => False
       end.
Proof.
  revert w. induction n as [|n IH]; intros w.
  { exists (Some TimeoutError). simpl. by rewrite app_nil_r. }
  cbn [wait_loop]. unfold bind.
  destruct (poll_once_cases w) as (p & Hp & Hcase).
  destruct (poll_once w) as [o w1]. simpl in Hp, Hcase. subst o.
  destruct p as [e|].
  - exists e. split; [done|].
    destruct e as [[st|st| |c]|]; done.
  - destruct (IH w1) as (e & He & Hcase'). exists e. split; [done|].
    destruct e as [[st|st| |c]|]; try done.
    rewrite Hcase', Hcase. simpl. by rewrite <- app_assoc.
Qed.

(** A poll whose query is refused ends the wait with the write error;
    nothing is read. *)
Lemma poll_once_write_fails (w : World T) i1 n st :
  send (instr w) "TRIG:STAT?" = (i1, (n, st)) ->
  st < SUCCESS ->
  poll_once w
  = (Ret (PollReturn (Some (WriteError st))),
     mkWorld i1 (trace w ++ [EvSleep 1000000000; write_event "TRIG:STAT?"])).
Proof.
  intros Hs Hst. rewrite poll_once_run, Hs.
  destruct (Z.ltb_spec st SUCCESS); [|lia]. simpl.
  by rewrite <- app_assoc.
Qed.

Lemma poll_once_read_fails (w : World T) i1 n st i2 d m st' :
  send (instr w) "TRIG:STAT?" = (i1, (n, st)) ->
  SUCCESS <= st ->
  instr_Read i1 100 = (i2, (d, m, st')) ->
  st' < SUCCESS ->
  poll_once w
  = (Ret (PollReturn (Some (ReadError st'))),
     mkWorld i2 (trace w ++ poll_events)).
Proof.
  intros Hs Hst Hr Hst'. rewrite poll_once_run, Hs.
  destruct (Z.ltb_spec st SUCCESS); [lia|]. rewrite Hr.
  destruct (Z.ltb_spec st' SUCCESS); [|lia]. simpl.
  by rewrite <- !app_assoc.
Qed.

End ControllerMore.

(** The batch loop on any instrument. *)
Lemma write_each_prefix
    {T : Type} `{Visa T} (cmds : list string) (w : World T) :
  exists (k : nat) (e : option error),
    (k <= length cmds)%nat
    /\ (write_each cmds w).1 = Ret e
    /\ trace (write_each cmds w).2
       = trace w ++ map write_event (take k cmds)
    /\ match e with
       | None => k = length cmds
       | Some err =>
           (0 < k)%nat /\ exists st, err = WriteError st /\ st < SUCCESS
       end.
Proof.
  revert w. induction cmds as [|cmd cmds IH]; intros w.
  { exists 0%nat, None. simpl. by rewrite app_nil_r. }
  rewrite write_each_cons.
  destruct (send (instr w) cmd) as [i1 [n st]] eqn:Hs.
  destruct (Z.ltb_spec st SUCCESS) as [Hlt|Hge].
  - exists 1%nat, (Some (WriteError st)). simpl.
    repeat split; [lia | lia |]. by exists st.
  - destruct (IH (mkWorld i1 (trace w ++ [write_event cmd])))
      as (k & e & Hk & Hrun & Htr & He).
    exists (S k), e. simpl in *. split; [lia|]. split; [done|].
    split; [by rewrite Htr, <- app_assoc|].
    destruct e as [err|]; [|lia].
    destruct He as (Hpos & He). split; [lia | done].
Qed.

(** X6. On any instrument the batch loop never panics and sends
    nothing but the commands of the batch, in their order and without
    gaps: the trace grows by the writes of the first [k] commands. With
    no error [k] is the whole batch; an error is a write error with a
    status below [SUCCESS], and at least one command was sent. *)
Theorem write_each_sends_a_prefix
    {T : Type} `{Visa T} (cmds : list string) (w : World T) :
  exists (k : nat) (e : option error),
    (k <= length cmds)%nat
    /\ (write_each cmds w).1 = Ret e
    /\ trace (write_each cmds w).2
       = trace w ++ map write_event (take k cmds)
    /\ match e with
       | None => k = length cmds
       | Some err =>
           (0 < k)%nat /\ exists st, err = WriteError st /\ st < SUCCESS
       end.
Proof. apply write_each_prefix. Qed.

(** X7. On any instrument [WaitForCapture] returns, it never panics:
    its result is no error, the timeout error, or the error of a write
    or of a read whose status is below [SUCCESS]. *)
Theorem WaitForCapture_returns
    {T : Type} `{Visa T} (w : World T) :
  exists e,
    (WaitForCapture w).1 = Ret e
    /\ match e with
       | None | Some TimeoutError => True
       | Some (WriteError st) | Some (ReadError st) => st < SUCCESS
       | Some (ConvError _) => False
       end.
Proof.
  destruct (wait_loop_cases 60 w) as (e & He & Hcase).
  exists e. split; [done|]. by destruct e as [[st|st| |c]|].
Qed.

(** X8. On any instrument, when [WaitForCapture] returns the timeout
    error it has made exactly 60 complete polls, each a sleep of one
    second, the query and a read of 100 bytes, and nothing else. *)
Theorem WaitForCapture_timeout_trace
    {T : Type} `{Visa T} (w : World T) :
  (WaitForCapture w).1 = Ret (Some TimeoutError) ->
  trace (WaitForCapture w).2
  = trace w ++ concat (replicate 60 poll_events).
Proof.
  intros Hrun. destruct (wait_loop_cases 60 w) as (e & He & Hcase).
  unfold WaitForCapture in *. rewrite He in Hrun.
  injection Hrun as ->. done.
Qed.

Lemma WaitForCapture_timeout_trace_witness :
  trace (WaitForCapture
           (Script.start []
              (replicate 60 (Script.answer "RUN")))).2
  = concat (replicate 60 poll_events).
Proof.
  apply (WaitForCapture_timeout_trace
           (Script.start [] (replicate 60 (Script.answer "RUN")))).
  vm_compute. reflexivity.
Defined.

(** X9. When polls that answer something other than [STOP] (fewer
    than 60) are followed by a status query that the instrument
    refuses, [WaitForCapture] returns the write error at once: the
    trace ends with that write, no read follows it. *)
Theorem WaitForCapture_write_failure
    {T : Type} `{Visa T} (w : World T) lines im i1 n st :
  Forall (fun l => l <> "STOP"%string) lines ->
  (length lines < 60)%nat ->
  Polled (instr w) lines im ->
  send im "TRIG:STAT?" = (i1, (n, st)) ->
  st < SUCCESS ->
  WaitForCapture w
  = (Ret (Some (WriteError st)),
     mkWorld i1 (trace w ++ concat (replicate (length lines) poll_events)
                 ++ [EvSleep 1000000000; write_event "TRIG:STAT?"])).
Proof.
  intros Hne Hlen Hp Hs Hst. unfold WaitForCapture.
  replace 60%nat with (length lines + S (59 - length lines))%nat by lia.
  rewrite (wait_loop_Polled _ lines w im Hne Hp).
  cbn [wait_loop]. unfold bind at 1.
  erewrite poll_once_write_fails by eassumption.
  simpl. by rewrite <- app_assoc.
Qed.

Lemma WaitForCapture_write_failure_witness :
  WaitForCapture (Script.start [(10, 0); (0, -7)] [Script.answer "RUN"])
  = (Ret (Some (WriteError (-7))),
     mkWorld (Script.mkInstr [] [])
       (poll_events ++ [EvSleep 1000000000; write_event "TRIG:STAT?"])).
Proof.
  apply (WaitForCapture_write_failure
           (Script.start [(10, 0); (0, -7)] [Script.answer "RUN"])
           ["RUN"%string] (Script.mkInstr [(0, -7)] [])
           (Script.mkInstr [] []) 0 (-7)).
  - repeat constructor. discriminate.
  - simpl. lia.
  - eapply Polled_cons;
      [reflexivity | simpl; lia | reflexivity | simpl; lia | reflexivity |].
    apply Polled_nil.
  - reflexivity.
  - simpl. lia.
Defined.

(** X10. When polls that answer something other than [STOP] (fewer
    than 60) are followed by a poll whose read fails, [WaitForCapture]
    returns the read error at once. *)
Theorem WaitForCapture_read_failure
    {T : Type} `{Visa T} (w : World T) lines im i1 n st i2 d m st' :
  Forall (fun l => l <> "STOP"%string) lines ->
  (length lines < 60)%nat ->
  Polled (instr w) lines im ->
  send im "TRIG:STAT?" = (i1, (n, st)) ->
  SUCCESS <= st ->
  instr_Read i1 100 = (i2, (d, m, st')) ->
  st' < SUCCESS ->
  WaitForCapture w
  = (Ret (Some (ReadError st')),
     mkWorld i2 (trace w
                 ++ concat (replicate (length lines + 1) poll_events))).
Proof.
  intros Hne Hlen Hp Hs Hst Hr Hst'. unfold WaitForCapture.
  replace 60%nat with (length lines + S (59 - length lines))%nat by lia.
  rewrite (wait_loop_Polled _ lines w im Hne Hp).
  cbn [wait_loop]. unfold bind at 1.
  erewrite poll_once_read_fails by eassumption.
  simpl. unfold ret. do 2 f_equal.
  rewrite replicate_add, concat_app. simpl.
  by rewrite <- app_assoc.
Qed.

Lemma WaitForCapture_read_failure_witness :
  WaitForCapture (Script.start [] [Script.answer "RUN"])
  = (Ret (Some (ReadError (-1))),
     mkWorld (Script.mkInstr [] []) (poll_events ++ poll_events)).
Proof.
  apply (WaitForCapture_read_failure
           (Script.start [] [Script.answer "RUN"])
           ["RUN"%string] (Script.mkInstr [] [])
           (Script.mkInstr [] []) 10 0 (Script.mkInstr [] [])
           (slice_of []) 0 (-1)).
  - repeat constructor. discriminate.
  - simpl. lia.
  - eapply Polled_cons;
      [reflexivity | simpl; lia | reflexivity | simpl; lia | reflexivity |].
    apply Polled_nil.
  - reflexivity.
  - simpl. lia.
  - reflexivity.
  - simpl. lia.
Defined.

(** X11. When the instrument refuses one of the six setup commands of
    [FetchWaveformData], the call returns that write error with no
    slices; the commands after it are not sent and nothing is read. *)
Theorem FetchWaveformData_write_failure
    {T : Type} `{Visa T} (source : string) (w : World T)
    pre cmd post i1 i2 n st :
  waveform_setup source = pre ++ cmd :: post ->
  Written (instr w) pre i1 ->
  send i1 cmd = (i2, (n, st)) ->
  st < SUCCESS ->
  FetchWaveformData source w
  = (Ret (inl (WriteError st)),
     mkWorld i2 (trace w ++ map write_event (pre ++ [cmd]))).
Proof.
  intros Hsetup Hpre Hs Hst. unfold FetchWaveformData, bind.
  rewrite Hsetup, (write_each_app pre _ w i1 Hpre), write_each_cons.
  simpl. rewrite Hs. destruct (Z.ltb_spec st SUCCESS); [|lia].
  unfold ret. by rewrite map_app, app_assoc.
Qed.

Lemma FetchWaveformData_write_failure_witness :
  FetchWaveformData "D0" (Script.start [(12, 0); (0, -3)] [])
  = (Ret (inl (WriteError (-3))),
     mkWorld (Script.mkInstr [] [])
       (map write_event [":WAV:SOUR D0"; ":WAV:MODE RAW"]%string)).
Proof.
  apply (FetchWaveformData_write_failure "D0"
           (Script.start [(12, 0); (0, -3)] [])
           [":WAV:SOUR D0"%string] ":WAV:MODE RAW"%string
           [":WAV:FORM BYTE"; ":WAV:STAR 1"; ":WAV:STOP 125000";
            ":WAV:DATA?"]%string
           (Script.mkInstr [(0, -3)] []) (Script.mkInstr [] []) 0 (-3)).
  - reflexivity.
  - eapply Written_cons; [reflexivity | simpl; lia | apply Written_nil].
  - reflexivity.
  - simpl. lia.
Defined.

(** X12. When the setup commands are accepted and the read of the
    waveform fails, [FetchWaveformData] returns the read error with no
    slices; the response is not sliced, so nothing panics. *)
Theorem FetchWaveformData_read_failure
    {T : Type} `{Visa T} (source : string) (w : World T) i1 i2 d m st :
  Written (instr w) (waveform_setup source) i1 ->
  instr_Read i1 125000 = (i2, (d, m, st)) ->
  st < SUCCESS ->
  FetchWaveformData source w
  = (Ret (inl (ReadError st)),
     mkWorld i2 (trace w ++ map write_event (waveform_setup source)
                 ++ [EvRead 125000])).
Proof.
  intros Hw Hr Hst. unfold FetchWaveformData, bind at 1.
  rewrite <- (app_nil_r (waveform_setup source)) at 1.
  rewrite (write_each_app _ [] w i1 Hw), write_each_nil.
  unfold bind. rewrite Read_run. simpl. rewrite Hr.
  destruct (Z.ltb_spec st SUCCESS); [|lia].
  unfold ret. by rewrite <- app_assoc.
Qed.

Lemma FetchWaveformData_read_failure_witness :
  (FetchWaveformData "D0" (Script.start [] [])).1
  = Ret (inl (ReadError (-1))).
Proof.
  erewrite (FetchWaveformData_read_failure "D0" (Script.start [] [])
              (Script.mkInstr [] []) (Script.mkInstr [] [])
              (slice_of []) 0 (-1)).
  - reflexivity.
  - repeat (eapply Written_cons; [reflexivity | simpl; lia |]).
    apply Written_nil.
  - reflexivity.
  - simpl. lia.
Defined.

(** X13. [FetchPreamble] returns the transport error and parses
    nothing when its query is refused (nothing is read then) or when
    its read fails (nothing is printed then). *)
Theorem FetchPreamble_transport_errors
    {float64 : Type} (float_zero : float64)
    (ParseFloat : string -> Strconv.NumError + float64)
    {T : Type} `{Visa T} (w : World T) :
  (forall i1 n st,
     send (instr w) ":WAV:PRE?" = (i1, (n, st)) ->
     st < SUCCESS ->
     FetchPreamble float_zero ParseFloat w
     = (Ret (inl (WriteError st)),
        mkWorld i1 (trace w ++ [write_event ":WAV:PRE?"])))
  /\ (forall i1 n st i2 d m st',
        send (instr w) ":WAV:PRE?" = (i1, (n, st)) ->
        SUCCESS <= st ->
        instr_Read i1 100 = (i2, (d, m, st')) ->
        st' < SUCCESS ->
        FetchPreamble float_zero ParseFloat w
        = (Ret (inl (ReadError st')),
           mkWorld i2 (trace w ++ [write_event ":WAV:PRE?"; EvRead 100]))).
Proof.
  split.
  - intros i1 n st Hs Hst. unfold FetchPreamble, bind.
    rewrite Write_run, Hs. by destruct (Z.ltb_spec st SUCCESS); [|lia].
  - intros i1 n st i2 d m st' Hs Hst Hr Hst'. unfold FetchPreamble, bind at 1.
    rewrite Write_run, Hs. destruct (Z.ltb_spec st SUCCESS); [lia|].
    unfold bind. rewrite Read_run. simpl. rewrite Hr.
    destruct (Z.ltb_spec st' SUCCESS); [|lia].
    unfold ret. by rewrite <- app_assoc.
Qed.

Lemma FetchPreamble_transport_errors_witness :
  FetchPreamble F64.zero F64.ParseFloat (Script.start [(0, -2)] [])
  = (Ret (inl (WriteError (-2))),
     mkWorld (Script.mkInstr [] []) [write_event ":WAV:PRE?"]).
Proof.
  apply (proj1 (FetchPreamble_transport_errors F64.zero F64.ParseFloat
                  (Script.start [(0, -2)] []))
           (Script.mkInstr [] []) 0 (-2)).
  - reflexivity.
  - simpl. lia.
Defined.

(** ** Lines and fields *)

Section Pieces.

Variable c : ascii.

Lemma split_on_nonempty (s : string) : Strings.split_on c s <> [].
Proof.
  destruct s as [|a s]; simpl; [done|].
  destruct (Ascii.eqb a c); [done|].
  by destruct (Strings.split_on c s).
Qed.

Lemma split_on_cons_sep (s : string) :
  Strings.split_on c (String c s) = EmptyString :: Strings.split_on c s.
Proof. simpl. by rewrite Ascii.eqb_refl. Qed.

Lemma split_on_cons_other (a : ascii) (s : string) :
  a <> c ->
  exists piece pieces,
    Strings.split_on c s = piece :: pieces
    /\ Strings.split_on c (String a s) = String a piece :: pieces.
Proof.
  intros Hne. simpl. apply Ascii.eqb_neq in Hne. rewrite Hne.
  destruct (Strings.split_on c s) as [|piece pieces] eqn:Hs.
  { by apply split_on_nonempty in Hs. }
  eauto.
Qed.

(** A string without [c] is a single piece. *)
Lemma split_on_single (s : string) :
  has_byte c s = false -> Strings.split_on c s = [s].
Proof.
  induction s as [|a s IH]; simpl; [done|].
  intros Hb. apply orb_false_iff in Hb as [Ha Hs].
  by rewrite Ha, IH.
Qed.

Lemma join_cons_char (a : ascii) (piece : string) pieces :
  join c (String a piece :: pieces) = String a (join c (piece :: pieces)).
Proof. by destruct pieces. Qed.

Lemma join_cons_empty pieces :
  pieces <> [] ->
  join c (EmptyString :: pieces) = String c (join c pieces).
Proof. by destruct pieces. Qed.

End Pieces.

(** The pieces of [s1], a separator, then [s2]. *)
Lemma split_on_append (c : ascii) (s1 s2 : string) :
  Strings.split_on c (s1 ++ String c s2)%string
  = Strings.split_on c s1 ++ Strings.split_on c s2.
Proof.
  induction s1 as [|a s1 IH].
  { simpl. by rewrite Ascii.eqb_refl. }
  change (String a s1 ++ String c s2)%string
    with (String a (s1 ++ String c s2)%string).
  destruct (Ascii.eqb_spec a c) as [->|Hne].
  - rewrite !split_on_cons_sep. by rewrite IH.
  - destruct (split_on_cons_other c a s1 Hne)
      as (piece & pieces & Hs & ->).
    destruct (split_on_cons_other c a (s1 ++ String c s2)%string Hne)
      as (piece' & pieces' & Hs' & ->).
    rewrite IH, Hs in Hs'. simpl in Hs'. by injection Hs' as <- <-.
Qed.

(** X14. Splitting and joining are inverse: the pieces of a string,
    joined with the separator, give the string back; no piece contains
    the separator, and there is always at least one piece. *)
Theorem split_on_join (c : ascii) (s : string) :
  join c (Strings.split_on c s) = s
  /\ Forall (fun piece => has_byte c piece = false) (Strings.split_on c s)
  /\ (1 <= length (Strings.split_on c s))%nat.
Proof.
  induction s as [|a s (IHj & IHf & IHl)].
  { simpl. repeat split; [|lia]. by repeat constructor. }
  destruct (Ascii.eqb_spec a c) as [->|Hne].
  - rewrite split_on_cons_sep. split; [|split].
    + rewrite join_cons_empty by apply split_on_nonempty. by rewrite IHj.
    + by constructor.
    + simpl. lia.
  - destruct (split_on_cons_other c a s Hne)
      as (piece & pieces & Hs & ->).
    rewrite Hs in *. split; [|split].
    + by rewrite join_cons_char, IHj.
    + apply Forall_cons in IHf as [Hp Hps]. constructor; [|done].
      simpl. rewrite Hp. by apply Ascii.eqb_neq in Hne as ->.
    + simpl. lia.
Qed.

(** X15. Splitting distributes over a separator: the pieces of
    [s1], a separator, then [s2] are the pieces of [s1] followed by the
    pieces of [s2]. *)
Theorem split_on_app (c : ascii) (s1 s2 : string) :
  Strings.split_on c (s1 ++ String c s2)%string
  = Strings.split_on c s1 ++ Strings.split_on c s2.
Proof. apply split_on_append. Qed.

(** X16. Only what comes before the first newline of a response
    counts: when [line] has no newline, the first line of [line]
    followed by a newline and anything else is [line], and so is the
    first line of [line] alone. *)
Theorem first_line_of_response (line rest : string) :
  has_byte Strings.newline line = false ->
  Strings.first_line (line ++ String Strings.newline rest)%string = Ret line
  /\ Strings.first_line line = Ret line.
Proof.
  intros Hl. unfold Strings.first_line. split.
  - rewrite split_on_append, (split_on_single _ line Hl). reflexivity.
  - rewrite (split_on_single _ line Hl). reflexivity.
Qed.

Lemma first_line_of_response_witness :
  Strings.first_line ("STOP" ++ String Strings.newline "junk")%string
  = Ret "STOP"%string.
Proof.
  apply (first_line_of_response "STOP" "junk"). reflexivity.
Defined.

Section PreambleMore.

Variable float64 : Type.
Variable float_zero : float64.
Variable ParseFloat : string -> Strconv.NumError + float64.

(** The result depends on the first ten pieces only. *)
Lemma parse_preamble_first_ten (l1 l2 : string) :
  (forall k, (k < 10)%nat ->
     Strings.split_on Strings.comma l1 !! k
     = Strings.split_on Strings.comma l2 !! k) ->
  parse_preamble float_zero ParseFloat l1
  = parse_preamble float_zero ParseFloat l2.
Proof.
  intros Hsame. unfold parse_preamble, field, index.
  rewrite !Hsame by lia. reflexivity.
Qed.

(** From a panic back to the line: fewer than ten fields, all of
    which convert. *)
Lemma parse_preamble_panic_inv (line : string) :
  parse_preamble float_zero ParseFloat line = Panic ->
  (field_count line < 10)%nat
  /\ forall k tok,
       Strings.split_on Strings.comma line !! k = Some tok ->
       conv_error ParseFloat k tok = None.
Proof.
  unfold field_count, parse_preamble.
  set (parts := Strings.split_on Strings.comma line).
  intros Hrun.
  repeat match type of Hrun with
  | field ?parse parts ?j _ _ _ = Panic =>
      let tj := fresh "tj" in
      let Ej := fresh "Ej" in
      let Pj := fresh "Pj" in
      unfold field at 1, index in Hrun;
      destruct (parts !! j) as [tj|] eqn:Ej;
      [ destruct (parse tj) eqn:Pj; [discriminate Hrun|]
      | clear Hrun;
        apply lookup_ge_None in Ej;
        split; [lia|];
        intros k tok Hk;
        pose proof (lookup_lt_Some _ _ _ Hk) as Hlt;
        unfold conv_error;
        repeat (destruct k as [|k];
                [ simpl;
                  match goal with
                  | E : parts !! _ = Some _ |- _ =>
                      rewrite E in Hk; injection Hk as <-;
                      match goal with
                      | P : _ = inr _ |- _ => by rewrite P
                      end
                  end
                | ]);
        lia ]
  end.
  discriminate Hrun.
Qed.

End PreambleMore.

(** X17. The parser panics exactly on the lines with fewer than ten
    fields whose fields all convert; a line with ten fields or more
    never panics. *)
Theorem parse_preamble_panics_iff
    {float64 : Type} (float_zero : float64)
    (ParseFloat : string -> Strconv.NumError + float64) (line : string) :
  (parse_preamble float_zero ParseFloat line = Panic
   <-> (field_count line < 10)%nat
       /\ forall k tok,
            Strings.split_on Strings.comma line !! k = Some tok ->
            conv_error ParseFloat k tok = None)
  /\ ((10 <= field_count line)%nat ->
      parse_preamble float_zero ParseFloat line <> Panic).
Proof.
  split; [split|].
  - apply parse_preamble_panic_inv.
  - intros [Hcount Hall]. by apply parse_preamble_too_short.
  - intros Hcount Hrun. apply parse_preamble_panic_inv in Hrun as [Hlt _].
    lia.
Qed.

Lemma parse_preamble_panics_iff_witness :
  parse_preamble F64.zero F64.ParseFloat "0,2,1000,1,0.1,-0.5,0,1,-7,"
  <> Panic.
Proof.
  apply (proj2 (parse_preamble_panics_iff F64.zero F64.ParseFloat
                  "0,2,1000,1,0.1,-0.5,0,1,-7,")).
  vm_compute. lia.
Defined.

(** X18. Fields after the tenth never matter: a line with at least ten
    fields gives the same result, value or error, whatever is added
    after a further comma. *)
Theorem parse_preamble_ignores_extra_fields
    {float64 : Type} (float_zero : float64)
    (ParseFloat : string -> Strconv.NumError + float64)
    (line extra : string) :
  (10 <= field_count line)%nat ->
  parse_preamble float_zero ParseFloat
    (line ++ String Strings.comma extra)%string
  = parse_preamble float_zero ParseFloat line.
Proof.
  unfold field_count. intros Hcount.
  apply parse_preamble_first_ten. intros k Hk.
  rewrite split_on_append. apply lookup_app_l. lia.
Qed.

Lemma parse_preamble_ignores_extra_fields_witness :
  parse_preamble F64.zero F64.ParseFloat
    ("0,2,1000,1,0.1,-0.5,0,1,-7,+9" ++ String Strings.comma "zz")%string
  = parse_preamble F64.zero F64.ParseFloat "0,2,1000,1,0.1,-0.5,0,1,-7,+9".
Proof.
  apply (parse_preamble_ignores_extra_fields F64.zero F64.ParseFloat
           "0,2,1000,1,0.1,-0.5,0,1,-7,+9" "zz").
  vm_compute. lia.
Defined.

(** ** What a successful call leaves in the trace *)

Section Shapes.

Context {T : Type} `{Visa T}.

Lemma write_each_all (cmds : list string) (w : World T) :
  (write_each cmds w).1 = Ret None ->
  trace (write_each cmds w).2 = trace w ++ map write_event cmds.
Proof.
  intros Hrun.
  destruct (write_each_prefix cmds w) as (k & e & Hk & He & Htr & Hcase).
  rewrite He in Hrun. injection Hrun as ->. subst k.
  by rewrite Htr, firstn_all.
Qed.

Lemma poll_once_stop_trace (w : World T) :
  (poll_once w).1 = Ret (PollReturn None) ->
  trace (poll_once w).2 = trace w ++ poll_events.
Proof.
  rewrite poll_once_run. simpl.
  destruct (send _ _) as [i1 [n st]].
  destruct (st <? SUCCESS); [done|].
  destruct (instr_Read _ _) as [i2 [[d m] st']].
  destruct (st' <? SUCCESS); [done|].
  destruct (Strings.first_line _); [|done]. simpl.
  intros _. by rewrite <- !app_assoc.
Qed.

Lemma wait_loop_stop_trace (n : nat) (w : World T) :
  (wait_loop n w).1 = Ret None ->
  exists k, (1 <= k <= n)%nat
    /\ trace (wait_loop n w).2
       = trace w ++ concat (replicate k poll_events).
Proof.
  revert w. induction n as [|n IH]; intros w; [done|].
  cbn [wait_loop]. unfold bind.
  destruct (poll_once_cases w) as (p & Hp & Hcase).
  pose proof (poll_once_stop_trace w) as Hstop.
  destruct (poll_once w) as [o w1]. simpl in Hp, Hcase, Hstop. subst o.
  destruct p as [e|].
  - simpl. intros [= ->]. exists 1%nat. split; [lia|].
    rewrite Hstop by done. unfold poll_events. simpl. done.
  - intros Hrun. destruct (IH w1 Hrun) as (k & Hk & Htr).
    exists (S k). split; [lia|].
    rewrite Htr, Hcase. simpl. by rewrite <- app_assoc.
Qed.

Lemma FetchWaveformData_ok_trace source (w : World T) header data :
  (FetchWaveformData source w).1 = Ret (inr (header, data)) ->
  trace (FetchWaveformData source w).2
  = trace w ++ map write_event (waveform_setup source) ++ [EvRead 125000].
Proof.
  unfold FetchWaveformData, bind.
  pose proof (write_each_all (waveform_setup source) w) as Hall.
  destruct (write_each_prefix (waveform_setup source) w)
    as (k & e & _ & He & _ & _).
  destruct (write_each (waveform_setup source) w) as [o w1].
  cbn [fst snd] in He, Hall. subst o.
  destruct e as [err|]; [done|]. specialize (Hall eq_refl).
  rewrite Read_run.
  destruct (instr_Read _ _) as [i2 [[d m] st]].
  destruct (st <? SUCCESS); [done|].
  destruct (reslice d 0 11); [|done].
  destruct (reslice d 11 (len d - 1)); [|done].
  intros _. cbn [snd trace ret]. by rewrite Hall, <- app_assoc.
Qed.

End Shapes.

Section PreambleShapes.

Context {T : Type} `{Visa T}.
Variable float64 : Type.
Variable float_zero : float64.
Variable ParseFloat : string -> Strconv.NumError + float64.

(** [FetchPreamble] after an accepted query and a successful read. *)
Lemma FetchPreamble_accepted (w : World T) i1 n st i2 d m st' line :
  send (instr w) ":WAV:PRE?" = (i1, (n, st)) ->
  SUCCESS <= st ->
  instr_Read i1 100 = (i2, (d, m, st')) ->
  SUCCESS <= st' ->
  Strings.first_line (string_of_bytes d) = Ret line ->
  FetchPreamble float_zero ParseFloat w
  = (parse_preamble float_zero ParseFloat line,
     mkWorld i2 (trace w
       ++ [write_event ":WAV:PRE?"; EvRead 100;
           EvPrint ("Raw Preamble: " ++ line
                    ++ String Strings.newline "")%string])).
Proof.
  intros Hs Hst Hr Hst' Hl. unfold FetchPreamble, bind at 1.
  rewrite Write_run, Hs. destruct (Z.ltb_spec st SUCCESS); [lia|].
  unfold bind at 1. rewrite Read_run. simpl. rewrite Hr.
  destruct (Z.ltb_spec st' SUCCESS); [lia|].
  unfold bind, lift, emit. rewrite Hl. simpl.
  rewrite <- !app_assoc. simpl.
  by destruct (parse_preamble _ _ _).
Qed.

Lemma FetchPreamble_ok_trace (w : World T) (p : Preamble float64) :
  (FetchPreamble float_zero ParseFloat w).1 = Ret (inr p) ->
  exists line,
    trace (FetchPreamble float_zero ParseFloat w).2
    = trace w
      ++ [write_event ":WAV:PRE?"; EvRead 100;
          EvPrint ("Raw Preamble: " ++ line
                   ++ String Strings.newline "")%string]
    /\ parse_preamble float_zero ParseFloat line = Ret (inr p).
Proof.
  destruct (send (instr w) ":WAV:PRE?") as [i1 [n st]] eqn:Hs.
  destruct (Z.ltb_spec st SUCCESS) as [Hst|Hst].
  { unfold FetchPreamble, bind. rewrite Write_run, Hs.
    destruct (Z.ltb_spec st SUCCESS); [done|lia]. }
  destruct (instr_Read i1 100) as [i2 [[d m] st']] eqn:Hr.
  destruct (Z.ltb_spec st' SUCCESS) as [Hst'|Hst'].
  { unfold FetchPreamble, bind at 1. rewrite Write_run, Hs.
    destruct (Z.ltb_spec st SUCCESS); [lia|].
    unfold bind. rewrite Read_run. simpl. rewrite Hr.
    destruct (Z.ltb_spec st' SUCCESS); [done|lia]. }
  destruct (first_line_total (string_of_bytes d)) as [line Hl].
  rewrite (FetchPreamble_accepted w i1 n st i2 d m st' line) by done.
  simpl. intros Hp. by exists line.
Qed.

End PreambleShapes.



(** ** The program *)

Section ProgramFacts.

Context {T : Type} `{VisaLib T}.

Lemma quiet_pret {A} (a : A) : quiet (pret (T:=T) a).
Proof. intros s. exists []. by rewrite app_nil_r. Qed.

Lemma quiet_record (e : SessionEvent) :
  is_close e = false -> quiet (record (T:=T) e).
Proof. intros He s. exists [e]. split; [done|]. by constructor. Qed.

Lemma quiet_log_Fatal {A} e : quiet (log_Fatal (T:=T) (A:=A) e).
Proof. intros s. exists [EvFatal e]. split; [done|]. by constructor. Qed.

Lemma quiet_controller {A} (c : M T A) : quiet (controller c).
Proof.
  intros s. unfold controller. destruct (c _) as [o w]. simpl.
  exists (map Io (trace w)). split; [done|].
  induction (trace w) as [|e tr IH]; simpl; by constructor.
Qed.

Lemma quiet_pbind {A B} (c : Prog T A) (k : A -> Prog T B) :
  quiet c -> (forall a, quiet (k a)) -> quiet (pbind c k).
Proof.
  intros Hc Hk s. unfold pbind. destruct (Hc s) as (add1 & Htr1 & Hq1).
  destruct (c s) as [[a| |] s1]; simpl in *; try by exists add1.
  destruct (Hk a s1) as (add2 & Htr2 & Hq2).
  exists (add1 ++ add2). split.
  - by rewrite Htr2, Htr1, app_assoc.
  - by apply Forall_app.
Qed.

Lemma quiet_print_header fmt_x (header : list byte) :
  quiet (print_header (T:=T) fmt_x header).
Proof.
  induction header as [|b rest IH]; simpl; [apply quiet_pret|].
  apply quiet_pbind; [by apply quiet_record | done].
Qed.

Variable float64 : Type.
Variable float_zero : float64.
Variable ParseFloat : string -> Strconv.NumError + float64.
Variable fmt_d : Z -> string.
Variable fmt_9f : float64 -> string.
Variable fmt_x : byte -> string.

Lemma quiet_main_session :
  quiet (main_session (T:=T) float_zero ParseFloat fmt_d fmt_9f fmt_x).
Proof.
  unfold main_session, log_Println, fmt_Print.
  repeat first
    [ apply quiet_pret
    | apply quiet_log_Fatal
    | apply quiet_print_header
    | apply quiet_controller
    | by apply quiet_record
    | apply quiet_pbind; [|intros ?]
    | match goal with
      | |- quiet (match ?x with _ => _ end) => destruct x
      end ].
Qed.

(** [Init] opens, it never closes, and it never panics or exits. *)
Lemma Init_run (connStr : string) (s : T * list SessionEvent) :
  exists e added,
    (Init connStr s).1 = GoOn e
    /\ (Init connStr s).2.2 = s.2 ++ added
    /\ Forall (fun ev => is_close ev = false) added
    /\ sent added = [].
Proof.
  unfold Init. destruct (lib_OpenDefaultRM s.1) as [i1 st1].
  destruct (st1 <? SUCCESS).
  { exists (Some ResourceManagerError), [EvOpenRM]. simpl.
    repeat split. by constructor. }
  destruct (rm_Open i1 connStr) as [i2 st2].
  destruct (st2 <? SUCCESS).
  - exists (Some (OpenError connStr)), [EvOpenRM; EvOpen connStr]. simpl.
    rewrite <- app_assoc. repeat split. by repeat constructor.
  - exists None, [EvOpenRM; EvOpen connStr]. simpl.
    rewrite <- app_assoc. repeat split. by repeat constructor.
Qed.

(** The closing calls of a whole run of [main]. *)
Lemma main_closing (i : T) :
  let r := main float_zero ParseFloat fmt_d fmt_9f fmt_x (i, []) in
  match r.1 with
  | FatalExit => Forall (fun e => is_close e = false) r.2.2
  | _ =>
      exists before,
        r.2.2 = before ++ [EvCloseInstr; EvCloseRM]
        /\ Forall (fun e => is_close e = false) before
  end.
Proof.
  unfold main, pbind, log_Println, record. cbn [fst snd].
  destruct (Init_run "TCPIP::192.168.1.70::INSTR"
              (i, [] ++ [EvLog "Initializing..."]))
    as (e & added & He & Htr & Hq & _).
  destruct (Init _ _) as [o s1]. cbn [fst snd] in *. subst o.
  destruct e as [err|].
  { unfold log_Fatal. cbn [fst snd]. rewrite Htr.
    apply Forall_app. split; [|by constructor].
    apply Forall_app. split; [by constructor | done]. }
  unfold deferring.
  destruct (quiet_main_session s1) as (added' & Htr' & Hq').
  assert (Hbefore : Forall (fun e => is_close e = false)
                      (s1.2 ++ added')).
  { rewrite Htr. apply Forall_app. split; [|done].
    apply Forall_app. split; [by constructor | done]. }
  destruct (main_session _ _ _ _ _ s1) as [[st| |] s2] eqn:Hrun;
    cbn [fst snd] in *; subst.
  - unfold Close. cbn [fst snd]. rewrite Htr'. eauto.
  - by rewrite Htr'.
  - unfold Close. cbn [fst snd]. rewrite Htr'. eauto.
Qed.

(** *** The commands of a run *)

Lemma sent_app (tr1 tr2 : list SessionEvent) :
  sent (tr1 ++ tr2) = sent tr1 ++ sent tr2.
Proof. apply omap_app. Qed.

Lemma sent_cons (e : SessionEvent) (tr : list SessionEvent) :
  sent (e :: tr)
  = match sent_command e with
    | Some cmd => cmd :: sent tr
    | None => sent tr
    end.
Proof. unfold sent. simpl. by destruct (sent_command e). Qed.

Lemma sent_writes (cmds : list string) :
  sent (map Io (map write_event cmds)) = cmds.
Proof.
  induction cmds as [|cmd cmds IH]; [done|].
  cbn [map]. rewrite sent_cons, IH. unfold write_event, sent_command.
  by rewrite string_of_list_byte_of_string.
Qed.

Lemma sent_polls (k : nat) :
  sent (map Io (concat (replicate k poll_events)))
  = replicate k "TRIG:STAT?"%string.
Proof.
  induction k as [|k IH]; [done|].
  cbn [replicate concat]. rewrite map_app, sent_app, IH.
  reflexivity.
Qed.

Lemma print_header_run (header : list byte) (s : T * list SessionEvent) :
  print_header fmt_x header s
  = (GoOn tt,
     (s.1, s.2 ++ map (fun b => Io (EvPrint (fmt_x b ++ " ")%string))
                      header)).
Proof.
  revert s. induction header as [|b rest IH]; intros [i tr]; simpl.
  { unfold pret. by rewrite app_nil_r. }
  unfold pbind, fmt_Print, record. simpl. rewrite IH. simpl.
  by rewrite <- app_assoc.
Qed.

Lemma sent_header_prints (header : list byte) :
  sent (map (fun b => Io (EvPrint (fmt_x b ++ " ")%string)) header) = [].
Proof. by induction header. Qed.

(** The commands sent by the part of [main] after [Init], when it
    reaches its end. *)
Lemma main_session_sent (s : T * list SessionEvent) st :
  (main_session float_zero ParseFloat fmt_d fmt_9f fmt_x s).1 = GoOn st ->
  exists k, (1 <= k <= 60)%nat
    /\ sent (main_session float_zero ParseFloat fmt_d fmt_9f fmt_x s).2.2
       = sent s.2 ++ trigger_setup ++ replicate k "TRIG:STAT?"%string
         ++ waveform_setup "D0" ++ [":WAV:PRE?"%string].
Proof.
  unfold main_session, pbind, log_Println, fmt_Print, record, controller.
  cbn [fst snd].
  pose proof (write_each_all trigger_setup (mkWorld s.1 [])) as H1.
  fold (Trigger (T:=T)) in H1.
  destruct (Trigger _) as [[[e1|]|] w1]; try done.
  cbn [fst snd] in H1. specialize (H1 eq_refl).
  pose proof (wait_loop_stop_trace 60 (mkWorld (instr w1) [])) as H2.
  fold (WaitForCapture (T:=T)) in H2.
  destruct (WaitForCapture _) as [[[e2|]|] w2]; try done.
  cbn [fst snd] in H2. destruct (H2 eq_refl) as (k & Hk & Htr2). clear H2.
  pose proof (FetchWaveformData_ok_trace "D0" (mkWorld (instr w2) []))
    as H3.
  destruct (FetchWaveformData _ _) as [[[e3|[header data]]|] w3]; try done.
  cbn [fst snd] in H3. specialize (H3 header data eq_refl).
  pose proof (FetchPreamble_ok_trace float64 float_zero ParseFloat
                (mkWorld (instr w3) [])) as H4.
  destruct (FetchPreamble _ _ _) as [[[e4|preamble]|] w4]; try done.
  cbn [fst snd] in H4. destruct (H4 preamble eq_refl) as (line & Htr4 & _).
  clear H4. cbn [fst snd]. rewrite print_header_run. cbn [fst snd].
  intros _. exists k. split; [done|].
  rewrite H1, Htr2, H3, Htr4. cbn [trace app]. unfold pret. cbn [fst snd].
  rewrite !sent_app, !map_app, !sent_app.
  rewrite !sent_writes, sent_polls, sent_header_prints.
  repeat match goal with
  | |- context [sent [?e]] => change (sent [e]) with (@nil string)
  end.
  change (sent (map Io [write_event ":WAV:PRE?"; EvRead 100;
                        EvPrint ("Raw Preamble: " ++ line
                                 ++ String Strings.newline "")%string]))
    with [":WAV:PRE?"%string].
  change (sent (map Io [EvRead 125000])) with (@nil string).
  rewrite ?app_nil_r, <- ?app_assoc. cbn [app]. reflexivity.
Qed.

End ProgramFacts.

(** X20. When [main] leaves through [log.Fatal], neither [Close] has
    been called: the deferred [r.Close()] does not run, and a failure of
    [Init] after the resource manager was opened leaves that open too. *)
Theorem main_fatal_never_closes
    {T : Type} `{VisaLib T} {float64 : Type} (float_zero : float64)
    (ParseFloat : string -> Strconv.NumError + float64)
    (fmt_d : Z -> string) (fmt_9f : float64 -> string)
    (fmt_x : byte -> string) (i : T) :
  (main float_zero ParseFloat fmt_d fmt_9f fmt_x (i, [])).1 = FatalExit ->
  Forall (fun e => is_close e = false)
         (main float_zero ParseFloat fmt_d fmt_9f fmt_x (i, [])).2.2.
Proof.
  intros Hexit.
  pose proof (main_closing float64 float_zero ParseFloat
                fmt_d fmt_9f fmt_x i) as Hc.
  simpl in Hc. by rewrite Hexit in Hc.
Qed.

Lemma main_fatal_never_closes_witness :
  Forall (fun e => is_close e = false)
    (main F64.zero F64.ParseFloat (fun _ => ""%string) (fun _ => ""%string)
       (fun _ => ""%string) (Script.mkInstr [(0, -1)] [], [])).2.2.
Proof.
  apply (main_fatal_never_closes F64.zero F64.ParseFloat
           (fun _ => ""%string) (fun _ => ""%string) (fun _ => ""%string)
           (Script.mkInstr [(0, -1)] [])).
  vm_compute. reflexivity.
Defined.

(** X21. When [main] returns or panics after [Init], the deferred
    [Close] has run: the last two events are the closing of the
    instrument and then of the resource manager, and no closing call
    comes before them. *)
Theorem main_closes_last
    {T : Type} `{VisaLib T} {float64 : Type} (float_zero : float64)
    (ParseFloat : string -> Strconv.NumError + float64)
    (fmt_d : Z -> string) (fmt_9f : float64 -> string)
    (fmt_x : byte -> string) (i : T) :
  (main float_zero ParseFloat fmt_d fmt_9f fmt_x (i, [])).1 <> FatalExit ->
  exists before,
    (main float_zero ParseFloat fmt_d fmt_9f fmt_x (i, [])).2.2
    = before ++ [EvCloseInstr; EvCloseRM]
    /\ Forall (fun e => is_close e = false) before.
Proof.
  intros Hexit.
  pose proof (main_closing float64 float_zero ParseFloat
                fmt_d fmt_9f fmt_x i) as Hc.
  simpl in Hc.
  by destruct (main _ _ _ _ _ _).1.
Qed.

Lemma main_closes_last_witness :
  exists before,
    (main F64.zero F64.ParseFloat (fun _ => ""%string) (fun _ => ""%string)
       (fun _ => ""%string)
       (Script.mkInstr [] [Script.answer "STOP";
                           (slice_of [x23; x30; x0a], 3, 0)], [])).2.2
    = before ++ [EvCloseInstr; EvCloseRM]
    /\ Forall (fun e => is_close e = false) before.
Proof.
  apply (main_closes_last F64.zero F64.ParseFloat
           (fun _ => ""%string) (fun _ => ""%string) (fun _ => ""%string)
           (Script.mkInstr [] [Script.answer "STOP";
                               (slice_of [x23; x30; x0a], 3, 0)])).
  vm_compute. discriminate.
Defined.

(** X22. A run of [main] that reaches its end has sent to the
    instrument exactly the 21 commands of [Trigger], then between 1 and
    60 status queries, then the six commands of [FetchWaveformData] for
    the source [D0], then the preamble query, in this order. *)
Theorem main_sent_commands
    {T : Type} `{VisaLib T} {float64 : Type} (float_zero : float64)
    (ParseFloat : string -> Strconv.NumError + float64)
    (fmt_d : Z -> string) (fmt_9f : float64 -> string)
    (fmt_x : byte -> string) (i : T) (st : Edges.LoopState) :
  (main float_zero ParseFloat fmt_d fmt_9f fmt_x (i, [])).1 = GoOn st ->
  exists k, (1 <= k <= 60)%nat
    /\ sent (main float_zero ParseFloat fmt_d fmt_9f fmt_x (i, [])).2.2
       = trigger_setup ++ replicate k "TRIG:STAT?"%string
         ++ waveform_setup "D0" ++ [":WAV:PRE?"%string].
Proof.
  unfold main, pbind, log_Println, record. cbn [fst snd].
  destruct (Init_run "TCPIP::192.168.1.70::INSTR"
              (i, [] ++ [EvLog "Initializing..."]))
    as (e & added & He & Htr & Hq & Hnone).
  destruct (Init _ _) as [o s1]. cbn [fst snd] in *. subst o.
  destruct e as [err|]; [done|].
  unfold deferring.
  pose proof (main_session_sent float64 float_zero ParseFloat
                fmt_d fmt_9f fmt_x s1) as Hs.
  destruct (main_session _ _ _ _ _ s1) as [[st'| |] s2]; try done.
  cbn [fst snd] in *. intros _.
  destruct (Hs st' eq_refl) as (k & Hk & Hsent).
  exists k. split; [done|].
  unfold Close. cbn [fst snd].
  rewrite sent_app, Hsent, Htr, sent_app, Hnone.
  cbn [app]. unfold sent at 1 2. simpl. by rewrite app_nil_r.
Qed.

Lemma main_sent_commands_witness :
  exists k, (1 <= k <= 60)%nat
    /\ sent (main F64.zero F64.ParseFloat (fun _ => ""%string)
               (fun _ => ""%string) (fun _ => ""%string)
               (Script.mkInstr []
                  [Script.answer "RUN"; Script.answer "STOP";
                   (slice_of [x23; x39; x30; x30; x30; x30; x30; x30; x30;
                              x30; x33; x00; x01; x03; x0a], 15, 0);
                   Script.answer "0,2,1000,1,0.1,-0.5,0,1,-7,+9"],
                [])).2.2
       = trigger_setup ++ replicate k "TRIG:STAT?"%string
         ++ waveform_setup "D0" ++ [":WAV:PRE?"%string].
Proof.
  eapply (main_sent_commands F64.zero F64.ParseFloat (fun _ => ""%string)
            (fun _ => ""%string) (fun _ => ""%string)
            (Script.mkInstr []
               [Script.answer "RUN"; Script.answer "STOP";
                (slice_of [x23; x39; x30; x30; x30; x30; x30; x30; x30;
                           x30; x33; x00; x01; x03; x0a], 15, 0);
                Script.answer "0,2,1000,1,0.1,-0.5,0,1,-7,+9"])).
  vm_compute. reflexivity.
Defined.

(** X23. After the pass over a payload of a length a Go slice can
    have, [timestamp] is the number of samples and [last] is the final
    sample (0x00 for an empty payload); the counter never wraps. *)
Theorem find_edges_counters (pins : gmap string Z) (data : GoSlice) :
  len data <= max_int64 ->
  Edges.timestamp (Edges.find_edges pins data) = len data
  /\ Edges.last (Edges.find_edges pins data)
     = default x00 (list.last (elems data)).
Proof.
  destruct data as [l sp]. unfold len. simpl. intros Hlen. split.
  - by apply timestamp_find_edges.
  - apply last_after_pass.
Qed.

Lemma find_edges_counters_witness :
  Edges.timestamp
    (Edges.find_edges Edges.main_pins (slice_of [x00; x01; x03; x02])) = 4
  /\ Edges.last
       (Edges.find_edges Edges.main_pins (slice_of [x00; x01; x03; x02]))
     = x02.
Proof.
  apply (find_edges_counters Edges.main_pins
           (slice_of [x00; x01; x03; x02])).
  vm_compute. discriminate.
Defined.
